(** * android-introspection: the package archive engine and the manifest
      orchestrator

    A shallow embedding of
      - [src/web_app/wasm/source/apk/zip_archiver.cpp] ([ZipArchiver]) and
      - [src/web_app/wasm/source/apk/apk.cpp] ([Apk::ApkImpl]),
    together with the properties the design document states about them.

    The C++ code is effectful: it reads and writes the file system, drives
    the minizip library through stateful handles and reports failure by
    throwing.  The embedding threads a [World] through every operation and
    returns either a value or the exception thrown; an exception leaves the
    side effects performed so far in place, as in C++. *)

From Stdlib Require Import ZArith Lia Ascii String.
From stdpp Require Import base option list gmap strings.

Local Open Scope Z_scope.

(** ** Bytes, C strings and fixed-width integers *)

Abbreviation bytes := (list Byte.byte).

(** The value [std::vector<std::byte>(n)] starts from: [n] zero bytes. *)
Definition zero_bytes (n : nat) : bytes := replicate n Byte.x00.

Module CString.

(** The characters a [char const *] denotes: everything before the first
    NUL.  [std::string::c_str()] hands such a pointer to the library, so
    a name with an embedded NUL reaches minizip cut at that NUL. *)
Fixpoint c_str (s : string) : string :=
  match s with
  | EmptyString => EmptyString
  | String c s' =>
      if Ascii.eqb c Ascii.zero then EmptyString else String c (c_str s')
  end.

(** The first [n] characters of [s] ([memcpy] of at most [n] bytes). *)
Fixpoint prefix (n : nat) (s : string) : string :=
  match n, s with
  | O, _ => EmptyString
  | _, EmptyString => EmptyString
  | S n', String c s' => String c (prefix n' s')
  end.

(** [std::string(buf)] for a zero-initialised [char buf[n]] the library
    copied [min (length s) n] bytes of [s] into.  When [s] has [n] bytes
    or more the buffer holds no terminator and the C++ behaviour is
    undefined; the model keeps the [n] bytes that were copied. *)
Definition from_buffer (n : nat) (s : string) : string :=
  c_str (prefix n s).

(** A name that passes through [c_str()] and through an [n]-byte name
    buffer unchanged. *)
Definition fits (n : nat) (s : string) : Prop :=
  c_str s = s ∧ (String.length s < n)%nat.

End CString.

Module Int.

(** [static_cast<uint32_t>(z)]. *)
Definition to_uint32 (z : Z) : Z := z mod 2 ^ 32.

(** A value stored in an [int32_t] (two's complement wrap-around). *)
Definition to_int32 (z : Z) : Z := (z + 2 ^ 31) mod 2 ^ 32 - 2 ^ 31.

End Int.

(** ** The world: file system, fault plan and call trace *)

(** The sizes minizip reports for a member ([unz_file_info] and
    [unz_file_info64] agree on the fields the archiver reads). *)
Record unz_file_info := {
  uncompressed_size : N;
  compressed_size : N;
}.

(** One member of a container as minizip exposes it: its stored name, the
    metadata of its directory record, the result of opening a read cursor
    on it and the bytes that cursor can deliver.  A damaged container may
    declare more bytes than it can deliver. *)
Record zip_entry := {
  e_name : string;
  e_info : unz_file_info;
  e_open_rc : Z;
  e_data : bytes;
}.

(** A regular file either holds a ZIP container (seen through the members
    minizip reports for it) or arbitrary other bytes. *)
Inductive node :=
| Directory
| PlainFile (content : bytes)
| ZipArchive (entries : list zip_entry).

(** What the environment answers to the calls whose outcome the program
    cannot control. *)
Record Faults := {
  (** result of the next [zipOpenNewFileInZip_64] *)
  openNewFile_rc : Z;
  (** results of the successive [zipWriteInFileInZip] calls; [ZIP_OK] once
      the list is used up *)
  write_rcs : list Z;
  (** how many bytes the destination device still accepts from an
      [std::ofstream]; [None] is no limit *)
  ofstream_limit : option nat;
}.

(** The calls into minizip and the file streams opened, in program order. *)
Inductive call :=
| CallZipOpen (path : string)
| CallZipOpenNewFileInZip (name : string)
| CallZipWriteInFileInZip (len : nat)
| CallUnzOpen (path : string)
| CallUnzGoToFirstFile
| CallUnzLocateFile (name : string)
| CallUnzReadCurrentFile (len : Z)
| CallOfstream (path : string).

Record World := {
  fs : gmap string node;
  faults : Faults;
  trace : list call;
}.

(** ** Exceptions and the state-and-exception monad *)

(** [zip_archiver.cpp] throws [std::logic_error] with a message; [apk.cpp]
    throws its two manifest exceptions with the package path.  The design
    document names the failures by kind: its [InvalidDestinationError],
    [MemberNotFoundError], [TruncatedReadError] and [ArchiveOpenError] are
    [logic_error]s told apart by their message, its [MissingManifestError]
    and [MalformedManifestError] are the two manifest exceptions. *)
Inductive exn :=
| logic_error (what : string)
| MissingAndroidManifestException (apkPath : string)
| MalformedAndroidManifestException (apkPath : string).

(** [Diverges] is the model of a loop running out of steps.  The two
    loops of the archiver are given enough steps never to produce it
    ([entries_loop_spec], [write_loop_total]). *)
Inductive outcome (A : Type) :=
| Returns (a : A)
| Throws (e : exn)
| Diverges.
Arguments Returns {A} a.
Arguments Throws {A} e.
Arguments Diverges {A}.

Definition M (A : Type) : Type := World → outcome A * World.

Definition ret {A} (a : A) : M A := λ w, (Returns a, w).
Definition throw {A} (e : exn) : M A := λ w, (Throws e, w).
Definition bind {A B} (m : M A) (k : A → M B) : M B :=
  λ w, match m w with
       | (Returns a, w') => k a w'
       | (Throws e, w') => (Throws e, w')
       | (Diverges, w') => (Diverges, w')
       end.

Notation "x <- m ;; k" := (bind m (λ x, k))
  (at level 100, m at next level, right associativity, only parsing).
Notation "m ;;; k" := (bind m (λ _, k))
  (at level 100, right associativity, only parsing).

Definition get_fs : M (gmap string node) := λ w, (Returns (fs w), w).
Definition get_faults : M Faults := λ w, (Returns (faults w), w).
Definition put_fs (f : gmap string node) : M unit :=
  λ w, (Returns tt, {| fs := f; faults := faults w; trace := trace w |}).
Definition put_faults (f : Faults) : M unit :=
  λ w, (Returns tt, {| fs := fs w; faults := f; trace := trace w |}).
Definition diverge {A} : M A := λ w, (Diverges, w).
Definition record (c : call) : M unit :=
  λ w, (Returns tt,
        {| fs := fs w; faults := faults w; trace := trace w ++ [c] |}).

(** ** [std::filesystem] and [std::ofstream]

    A path is the key it is spelled as: the model does not resolve [.],
    [..], links or the working directory, so two spellings of one file
    are two keys.  What a statement says about the key an operation used
    carries over to the file; what it says about other keys carries over
    only as far as they name other files. *)

Module Filesystem.

Definition exists_ (f : gmap string node) (p : string) : bool :=
  bool_decide (is_Some (f !! p)).

Definition is_directory (f : gmap string node) (p : string) : bool :=
  match f !! p with
  | Some Directory => true
  | _ => false
  end.

Fixpoint has_separator (s : string) : bool :=
  match s with
  | EmptyString => false
  | String c s' => Ascii.eqb c "/" || has_separator s'
  end.

Fixpoint ends_with_separator (s : string) : bool :=
  match s with
  | EmptyString => false
  | String c EmptyString => Ascii.eqb c "/"
  | String _ s' => ends_with_separator s'
  end.

Definition is_absolute (s : string) : bool :=
  match s with
  | String c _ => Ascii.eqb c "/"
  | EmptyString => false
  end.

(** [fs::path(p) / q]: an absolute [q] replaces [p]; otherwise [q] is
    appended, after a separator unless [p] is empty or ends with one. *)
Definition path_append (p q : string) : string :=
  if is_absolute q then q
  else if String.eqb p "" || ends_with_separator p then (p ++ q)%string
  else (p ++ "/" ++ q)%string.

(** Everything before the last separator. *)
Fixpoint parent_path (s : string) : string :=
  match s with
  | EmptyString => EmptyString
  | String c s' =>
      if has_separator s' then String c (parent_path s') else EmptyString
  end.

(** Whether [std::ofstream(p, binary)] opens: [p] is not empty and not a
    directory, and the directory it lies in exists.  A path without a
    parent lies in the working directory (or the root), which exists. *)
Definition ofstream_opens (f : gmap string node) (p : string) : bool :=
  negb (String.eqb p "") && negb (is_directory f p)
  && (String.eqb (parent_path p) "" || is_directory f (parent_path p)).

(** What [write] puts into the file on a device with the given limit. *)
Definition written (limit : option nat) (b : bytes) : bytes :=
  match limit with
  | None => b
  | Some n => take n b
  end.

(** [std::ofstream(p, binary)], one [write] of [b], [close()].  None of
    the three throws: a stream that failed to open ignores the write, a
    short write only sets the stream's [badbit]. *)
Definition ofstream_write_close (p : string) (b : bytes) : M unit :=
  record (CallOfstream p) ;;;
  f <- get_fs ;;
  flt <- get_faults ;;
  if ofstream_opens f p
  then put_fs (<[p := PlainFile (written (ofstream_limit flt) b)]> f)
  else ret tt.

End Filesystem.

(** ** [std::istream] *)

Module Istream.

(** An input stream: the bytes it can still deliver, how its source
    behaves once they are used up (end of file, or a read error), and
    the stream's state bits and last [gcount()]. *)
Record istream := {
  pending : bytes;
  source_fails : bool;
  eofbit : bool;
  failbit : bool;
  badbit : bool;
  gcount : nat;
}.

Definition good (s : istream) : bool :=
  negb (eofbit s) && negb (failbit s) && negb (badbit s).

Definition eof (s : istream) : bool := eofbit s.

(** [s.read(buf, n)]: the bytes stored into the buffer and the stream
    afterwards.  A stream that is not [good] delivers nothing and sets
    [failbit].  Otherwise up to [n] bytes are delivered; when fewer than
    [n] were available the stream sets [eofbit] and [failbit] at the end
    of the data, or [badbit] when its source reports an error. *)
Definition read (n : nat) (s : istream) : bytes * istream :=
  if good s then
    let got := take n (pending s) in
    let short := bool_decide (length (pending s) < n)%nat in
    (got,
     {| pending := drop n (pending s);
        source_fails := source_fails s;
        eofbit := short && negb (source_fails s);
        failbit := short && negb (source_fails s);
        badbit := short && source_fails s;
        gcount := length got |})
  else
    ([],
     {| pending := pending s;
        source_fails := source_fails s;
        eofbit := eofbit s;
        failbit := true;
        badbit := badbit s;
        gcount := 0 |}).

(** A freshly opened stream over [b] whose source ends with end of
    file. *)
Definition of_bytes (b : bytes) : istream :=
  {| pending := b; source_fails := false;
     eofbit := false; failbit := false; badbit := false; gcount := 0 |}.

(** A freshly opened stream that delivers [b] and then a read error. *)
Definition failing_after (b : bytes) : istream :=
  {| pending := b; source_fails := true;
     eofbit := false; failbit := false; badbit := false; gcount := 0 |}.

End Istream.

(** ** The minizip library, as far as the archiver drives it

    minizip is a third-party library; the model below gives each call the
    archiver makes its documented effect on a container seen as a list of
    members, the environment deciding where a write may fail.

    The archiver reaches the library through the scoped wrappers of
    [scoped_minizip.h] ([ScopedZipOpen], [ScopedZipCloseFileInZip],
    [ScopedUnzOpenFile], [ScopedUnzOpenCurrentFile]), which are not part of
    the two source files.  Modelled from the spec: each wrapper acquires
    its resource when it is constructed and releases it when its scope is
    left, on every exit path (section 5 and the design notes); [get()] is
    the handle, null when opening failed, and [result()] is the result of
    the opening call.  So a wrapper's construction is the library's open
    call and its release the matching close call, which [add] makes
    explicit. *)

Module Minizip.

Definition ZIP_OK : Z := 0.
Definition ZIP_ERRNO : Z := -1.
Definition UNZ_OK : Z := 0.
Definition UNZ_END_OF_LIST_OF_FILE : Z := -100.
Definition UNZ_PARAMERROR : Z := -102.
Definition MZ_OK : Z := 0.

Inductive append_status := APPEND_STATUS_CREATE | APPEND_STATUS_ADDINZIP.

(** *** Writing *)

(** An open [zipFile]: the container's path, the members it holds so far
    and the member write session in progress, if any. *)
Record zipFile := {
  zf_path : string;
  zf_entries : list zip_entry;
  zf_current : option (string * bytes);
}.

(** [zipOpen(path, mode)]; [None] is the null handle.  Appending needs a
    container at [path]; creating needs a place where a file can be
    created. *)
Definition zipOpen (path : string) (mode : append_status)
  : M (option zipFile) :=
  record (CallZipOpen path) ;;;
  f <- get_fs ;;
  match mode with
  | APPEND_STATUS_ADDINZIP =>
      match f !! path with
      | Some (ZipArchive es) =>
          ret (Some {| zf_path := path; zf_entries := es;
                       zf_current := None |})
      | _ => ret None
      end
  | APPEND_STATUS_CREATE =>
      if Filesystem.ofstream_opens f path
      then ret (Some {| zf_path := path; zf_entries := [];
                        zf_current := None |})
      else ret None
  end.

(** [zipOpenNewFileInZip_64(zf, name, ..., method 0, level 0, zip64
    false)]: starts a stored member named [name] when the environment
    lets it. *)
Definition zipOpenNewFileInZip_64 (zf : zipFile) (name : string)
  : M (Z * zipFile) :=
  record (CallZipOpenNewFileInZip name) ;;;
  flt <- get_faults ;;
  if openNewFile_rc flt =? ZIP_OK
  then ret (ZIP_OK, {| zf_path := zf_path zf; zf_entries := zf_entries zf;
                       zf_current := Some (name, []) |})
  else ret (openNewFile_rc flt, zf).

(** [zipWriteInFileInZip(zf, buf, len)]: appends the chunk to the member
    being written when the environment lets it. *)
Definition zipWriteInFileInZip (zf : zipFile) (chunk : bytes)
  : M (Z * zipFile) :=
  record (CallZipWriteInFileInZip (length chunk)) ;;;
  flt <- get_faults ;;
  let rc := default ZIP_OK (head (write_rcs flt)) in
  put_faults {| openNewFile_rc := openNewFile_rc flt;
                write_rcs := tail (write_rcs flt);
                ofstream_limit := ofstream_limit flt |} ;;;
  if rc =? ZIP_OK
  then ret (ZIP_OK,
            {| zf_path := zf_path zf; zf_entries := zf_entries zf;
               zf_current :=
                 match zf_current zf with
                 | Some (n, d) => Some (n, d ++ chunk)
                 | None => None
                 end |})
  else ret (rc, zf).

(** [zipCloseFileInZip(zf)]: the member written so far joins the
    container, after the members already there, with its size recorded. *)
Definition zipCloseFileInZip (zf : zipFile) : zipFile :=
  match zf_current zf with
  | Some (n, d) =>
      {| zf_path := zf_path zf;
         zf_entries :=
           zf_entries zf ++
           [{| e_name := n;
               e_info := {| uncompressed_size := N.of_nat (length d);
                            compressed_size := N.of_nat (length d) |};
               e_open_rc := MZ_OK;
               e_data := d |}];
         zf_current := None |}
  | None => zf
  end.

(** [zipClose(zf)]: the container file now holds the handle's members. *)
Definition zipClose (zf : zipFile) : M unit :=
  f <- get_fs ;;
  put_fs (<[zf_path zf := ZipArchive (zf_entries (zipCloseFileInZip zf))]> f).

(** *** Reading *)

(** An open [unzFile]: the members of the container and the cursor. *)
Record unzFile := {
  uz_entries : list zip_entry;
  uz_cursor : option nat;
}.

Definition current (h : unzFile) : option zip_entry :=
  i ← uz_cursor h; uz_entries h !! i.

(** [unzOpen(path)]; [None] is the null handle. *)
Definition unzOpen (path : string) : M (option unzFile) :=
  record (CallUnzOpen path) ;;;
  f <- get_fs ;;
  match f !! path with
  | Some (ZipArchive es) =>
      ret (Some {| uz_entries := es; uz_cursor := None |})
  | _ => ret None
  end.

Definition unzGoToFirstFile (h : unzFile) : M (Z * unzFile) :=
  record CallUnzGoToFirstFile ;;;
  match uz_entries h with
  | [] => ret (UNZ_END_OF_LIST_OF_FILE, h)
  | _ => ret (UNZ_OK, {| uz_entries := uz_entries h; uz_cursor := Some 0%nat |})
  end.

Definition unzGoToNextFile (h : unzFile) : Z * unzFile :=
  match uz_cursor h with
  | Some i =>
      if bool_decide (S i < length (uz_entries h))%nat
      then (UNZ_OK, {| uz_entries := uz_entries h; uz_cursor := Some (S i) |})
      else (UNZ_END_OF_LIST_OF_FILE, h)
  | None => (UNZ_PARAMERROR, h)
  end.

Definition no_info : unz_file_info :=
  {| uncompressed_size := 0%N; compressed_size := 0%N |}.

(** [unzGetCurrentFileInfo64(h, &info, name, size, ...)]: the metadata
    of the member under the cursor and its name as it arrives in a
    zero-initialised buffer of [size] bytes. *)
Definition unzGetCurrentFileInfo64 (h : unzFile) (size : nat)
  : Z * unz_file_info * string :=
  match current h with
  | Some e => (UNZ_OK, e_info e, CString.from_buffer size (e_name e))
  | None => (UNZ_PARAMERROR, no_info, EmptyString)
  end.

(** [unzGetCurrentFileInfo(h, &info, nullptr, 0, ...)]. *)
Definition unzGetCurrentFileInfo (h : unzFile) : Z * unz_file_info :=
  match current h with
  | Some e => (UNZ_OK, e_info e)
  | None => (UNZ_PARAMERROR, no_info)
  end.

(** The position of the first member of [es] named [name]. *)
Fixpoint locate (name : string) (es : list zip_entry) : option nat :=
  match es with
  | [] => None
  | e :: es' =>
      if String.eqb (e_name e) name then Some 0%nat
      else S <$> locate name es'
  end.

(** [unzLocateFile(h, name, nullptr)]: the cursor moves to the first
    member whose name is exactly [name]. *)
Definition unzLocateFile (h : unzFile) (name : string) : M (Z * unzFile) :=
  record (CallUnzLocateFile name) ;;;
  match locate name (uz_entries h) with
  | Some i =>
    ret (UNZ_OK, {| uz_entries := uz_entries h; uz_cursor := Some i |})
  | None => ret (UNZ_END_OF_LIST_OF_FILE, h)
  end.

(** [unzOpenCurrentFile(h)]. *)
Definition unzOpenCurrentFile (h : unzFile) : Z :=
  match current h with
  | Some e => e_open_rc e
  | None => UNZ_PARAMERROR
  end.

(** [unzReadCurrentFile(h, buf, len)] on a freshly opened member: the
    bytes stored at the start of the buffer and the [int32_t] count
    returned. *)
Definition unzReadCurrentFile (h : unzFile) (len : Z) : M (Z * bytes) :=
  record (CallUnzReadCurrentFile len) ;;;
  match current h with
  | Some e =>
      let got := take (Z.to_nat len) (e_data e) in
      ret (Int.to_int32 (Z.of_nat (length got)), got)
  | None => ret (UNZ_PARAMERROR, [])
  end.

End Minizip.

(** ** [zip_archiver.cpp] *)

Module ZipArchiver.

Import CString Filesystem Minizip.

Record ZipArchiver := { zipPath_ : string }.

Fixpoint for_each {A} (body : A → M unit) (l : list A) : M unit :=
  match l with
  | [] => ret tt
  | x :: l' => body x ;;; for_each body l'
  end.

Definition openZipFile (path : string) : M zipFile :=
  f <- get_fs ;;
  let fileExists := exists_ f path in
  let zipMode :=
    if fileExists then APPEND_STATUS_ADDINZIP else APPEND_STATUS_CREATE in
  openedZipFile <- zipOpen path zipMode ;;
  match openedZipFile with
  | None => throw (logic_error "unable to open zip file")
  | Some zf => ret zf
  end.

Section Streaming.

(** [BUFSIZ] of [<cstdio>], the size of [readBuffer]. *)
Variable BUFSIZ : nat.

(** The [do ... while] loop of [writeStreamToOpenZipFile], entered with
    the current value of [result].  One unit of [fuel] per iteration. *)
Fixpoint write_loop (fuel : nat) (result : Z)
    (source : Istream.istream) (zf : zipFile)
  : M (Istream.istream * zipFile) :=
  match fuel with
  | O => diverge
  | S fuel' =>
      let (readBuffer, source) := Istream.read BUFSIZ source in
      let readCount := Istream.gcount source in
      step <-
        (if bool_decide (readCount < BUFSIZ)%nat
            && negb (Istream.eof source) && negb (Istream.good source)
         then ret (ZIP_ERRNO, zf)
         else if bool_decide (0 < readCount)%nat
         then zipWriteInFileInZip zf (take readCount readBuffer)
         else ret (result, zf)) ;;
      let (result, zf) := step : Z * zipFile in
      if (result =? ZIP_OK) && bool_decide (0 < readCount)%nat
      then write_loop fuel' result source zf
      else ret (source, zf)
  end.

(** The function returns nothing: the last [result] is dropped.  What
    comes back here is the state of the two objects it mutated. *)
Definition writeStreamToOpenZipFile
    (source : Istream.istream) (zf : zipFile)
  : M (Istream.istream * zipFile) :=
  write_loop (S (length (Istream.pending source))) ZIP_OK source zf.

(** [ZipArchiver::add]; returns the state the call leaves [source]
    in.  The two scoped objects release in reverse order when the
    function is left: first the member write session, then the
    container handle. *)
Definition add (self : ZipArchiver) (source : Istream.istream)
    (path : string) : M Istream.istream :=
  zipFile <- openZipFile (zipPath_ self) ;;
  let pathString := path in
  opened <- zipOpenNewFileInZip_64 zipFile (c_str pathString) ;;
  let (result, zipFile) := opened : Z * Minizip.zipFile in
  written <-
    (if result =? ZIP_OK
     then
       copied <- writeStreamToOpenZipFile source zipFile ;;
       let (source, zipFile) := copied : Istream.istream * Minizip.zipFile in
       ret (source, zipCloseFileInZip zipFile)
     else ret (source, zipFile)) ;;
  let (source, zipFile) := written : Istream.istream * Minizip.zipFile in
  zipClose zipFile ;;;
  ret source.

End Streaming.

Abbreviation PathAndFileInfo := (string * unz_file_info)%type.

(** The [do ... while] loop of [getAllEntriesInZipFile]. *)
Fixpoint entries_loop (fuel : nat) (h : unzFile)
    (entries : list PathAndFileInfo) : M (list PathAndFileInfo) :=
  match fuel with
  | O => diverge
  | S fuel' =>
      let '(result, fileInfo, fileNameInZip) :=
        unzGetCurrentFileInfo64 h 256 in
      let entries :=
        if result =? UNZ_OK
        then entries ++ [(fileNameInZip, fileInfo)] else entries in
      let (result, h) := unzGoToNextFile h in
      if UNZ_OK =? result then entries_loop fuel' h entries
      else ret entries
  end.

Definition getAllEntriesInZipFile (path : string)
  : M (list PathAndFileInfo) :=
  openedZipFile <- unzOpen path ;;
  match openedZipFile with
  | None => ret []
  | Some h =>
      first <- unzGoToFirstFile h ;;
      let (result, h) := first : Z * unzFile in
      if result =? UNZ_OK
      then entries_loop (length (uz_entries h)) h []
      else ret []
  end.

Definition contains (self : ZipArchiver) (path : string) : M bool :=
  zipFile <- unzOpen (zipPath_ self) ;;
  match zipFile with
  | Some zf =>
      let pathString := path in
      located <- unzLocateFile zf (c_str pathString) ;;
      ret (fst located =? UNZ_OK)
  | None => ret false
  end.

Definition destination_error : exn :=
  logic_error "path must be a directory or must not exist".
Definition not_in_archive_error : exn :=
  logic_error "path does not exist in archive".
Definition short_read_error : exn :=
  logic_error "unable to read full file in archive".

(** Lines 130 to 154 of [ZipArchiver::extract]: from the listing to the
    filled [fileContents] buffer.  Returns [pathInZip->first] and the
    buffer. *)
Definition extractMemberBytes (self : ZipArchiver)
    (pathToExtract : string) : M (string * bytes) :=
  entries <- getAllEntriesInZipFile (zipPath_ self) ;;
  match List.find (λ entry : PathAndFileInfo,
                     String.eqb (fst entry) pathToExtract) entries with
  | None => throw not_in_archive_error
  | Some pathInZip =>
      opened <- unzOpen (zipPath_ self) ;;
      match opened with
      | None => throw (logic_error "archive does not exist")
      | Some zipFile =>
          located <- unzLocateFile zipFile (c_str (fst pathInZip)) ;;
          let (result, zipFile) := located : Z * unzFile in
          if negb (result =? UNZ_OK) then throw not_in_archive_error else
          let (result, zipFileInfo) := unzGetCurrentFileInfo zipFile in
          if negb (result =? UNZ_OK)
          then throw (logic_error "unable to get file info in archive") else
          if negb (unzOpenCurrentFile zipFile =? MZ_OK)
          then throw (logic_error "unable to open zip entry in archive") else
          let fileContents :=
            zero_bytes (N.to_nat (uncompressed_size zipFileInfo)) in
          let fileContentsSize :=
            Int.to_uint32 (Z.of_nat (length fileContents)) in
          read <- unzReadCurrentFile zipFile fileContentsSize ;;
          let (bytesRead, got) := read : Z * bytes in
          let fileContents := got ++ drop (length got) fileContents in
          if negb (Int.to_uint32 bytesRead =? fileContentsSize)
          then throw short_read_error
          else ret (fst pathInZip, fileContents)
      end
  end.

(** [ZipArchiver::extract]. *)
Definition extract (self : ZipArchiver) (pathToExtract path : string)
  : M unit :=
  f <- get_fs ;;
  let isPathValid := is_directory f path || negb (exists_ f path) in
  if negb isPathValid then throw destination_error else
  member <- extractMemberBytes self pathToExtract ;;
  let (name, fileContents) := member : string * bytes in
  let pathString := path in
  let fullPathToExtract := path_append pathString (c_str name) in
  ofstream_write_close fullPathToExtract fileContents.

(** [ZipArchiver::extractAll]. *)
Definition extractAll (self : ZipArchiver) (path : string) : M unit :=
  f <- get_fs ;;
  let isPathValid := is_directory f path || negb (exists_ f path) in
  if negb isPathValid then throw destination_error else
  entries <- getAllEntriesInZipFile (zipPath_ self) ;;
  for_each (λ entry : PathAndFileInfo, extract self (fst entry) path)
           entries.

End ZipArchiver.

(** ** The binary XML collaborator of [apk.cpp] *)

Module BinaryXml.

(** The element classes of [binary_xml/binary_xml.h], by what [apk.cpp]
    reads from them: [tag()] or [error()]. *)
Inductive XmlElement :=
| StartXmlTagElement (tag : string)
| EndXmlTagElement (tag : string)
| InvalidXmlTagElement (error : string)
| CDataTagElement (tag : string).

Definition is_invalid (e : XmlElement) : bool :=
  match e with
  | InvalidXmlTagElement _ => true
  | _ => false
  end.

(** A decoded document: the ordered, finite element sequence. *)
Record BinaryXml := { elements : list XmlElement }.

(** The interface [BinaryXmlVisitor]: four [const] operations that
    return nothing and may throw. *)
Class BinaryXmlVisitor (V : Type) := {
  visit_start : V → string → outcome unit;
  visit_end : V → string → outcome unit;
  visit_invalid : V → string → outcome unit;
  visit_cdata : V → string → outcome unit;
}.

Definition dispatch `{BinaryXmlVisitor V} (v : V) (e : XmlElement)
  : outcome unit :=
  match e with
  | StartXmlTagElement tag => visit_start v tag
  | EndXmlTagElement tag => visit_end v tag
  | InvalidXmlTagElement error => visit_invalid v error
  | CDataTagElement tag => visit_cdata v tag
  end.

(** Modelled from the spec: [BinaryXml::traverseElements], whose body is
    in [binary_xml.cpp].  Section 4.3: the elements are consumed one at
    a time, in order, each dispatched to the visitor operation of its
    variant; the engine keeps no state but the cursor and does not stop
    at an invalid element by itself.  An exception thrown by the visitor
    leaves the loop, as any C++ exception does. *)
Fixpoint traverse `{BinaryXmlVisitor V} (v : V) (es : list XmlElement)
  : outcome unit :=
  match es with
  | [] => Returns tt
  | e :: es' =>
      match dispatch v e with
      | Returns _ => traverse v es'
      | Throws x => Throws x
      | Diverges => Diverges
      end
  end.

Definition traverseElements `{BinaryXmlVisitor V} (xml : BinaryXml) (v : V)
  : outcome unit :=
  traverse v (elements xml).

Definition names (tagName : string) (e : XmlElement) : bool :=
  match e with
  | StartXmlTagElement tag | EndXmlTagElement tag => String.eqb tag tagName
  | _ => false
  end.

(** Modelled from the spec: [BinaryXml::hasElement], whose body is in
    [binary_xml.cpp].  Section 4.3: scans for at least one start-tag or
    end-tag whose name equals [tagName]. *)
Definition hasElement (xml : BinaryXml) (tagName : string) : bool :=
  existsb (names tagName) (elements xml).

End BinaryXml.

(** ** [apk.cpp] *)

Module Apk.

Import BinaryXml.

Definition ANDROID_MANIFEST : string := "AndroidManifest.xml".
Definition ANDROID_MANIFEST_TAG_APPLICATION : string := "application".

Record ApkImpl := { apkPath_ : string }.

(** [MyBinaryXmlVisitor]: its only member is the package path.  The
    start-tag and end-tag operations compare the tag with the
    application tag and, on either branch, only log. *)
Record MyBinaryXmlVisitor := { visitor_apkPath_ : string }.

#[global] Instance MyBinaryXmlVisitor_visitor
  : BinaryXmlVisitor MyBinaryXmlVisitor := {|
  visit_start _ tag :=
    if String.eqb tag ANDROID_MANIFEST_TAG_APPLICATION
    then Returns tt else Returns tt;
  visit_end _ tag :=
    if String.eqb tag ANDROID_MANIFEST_TAG_APPLICATION
    then Returns tt else Returns tt;
  visit_invalid v _ :=
    Throws (MalformedAndroidManifestException (visitor_apkPath_ v));
  visit_cdata _ _ := Returns tt;
|}.

Section Collaborators.

(** [ApkParser(apkPath).getFiles()] and
    [ApkParser(apkPath).getFileContents(name)], of [apk_parser.h], and
    the constructor [BinaryXml(contents)]: the decoder. *)
Variable getFiles : string → list string.
Variable getFileContents : string → string → bytes.
Variable decode : bytes → BinaryXml.

(** [Apk::ApkImpl::makeDebuggable]. *)
Definition makeDebuggable (self : ApkImpl) : outcome unit :=
  let files := getFiles (apkPath_ self) in
  let hasAndroidManifest :=
    bool_decide (ANDROID_MANIFEST ∈ files) in
  if negb hasAndroidManifest
  then Throws (MissingAndroidManifestException (apkPath_ self)) else
  let contents := getFileContents (apkPath_ self) ANDROID_MANIFEST in
  if bool_decide (contents = [])
  then Throws (MissingAndroidManifestException (apkPath_ self)) else
  let binaryXml := decode contents in
  if negb (hasElement binaryXml ANDROID_MANIFEST_TAG_APPLICATION)
  then Throws (MalformedAndroidManifestException (apkPath_ self)) else
  let visitor := {| visitor_apkPath_ := apkPath_ self |} in
  traverseElements binaryXml visitor.

(** [Apk::ApkImpl::isDebuggable]. *)
Definition isDebuggable (self : ApkImpl) : bool := false.

End Collaborators.

(** The two terminal states of the orchestrator's state machine in the
    design document. *)
Inductive target_state := TARGET_FOUND | TARGET_MISSING.

(** Whether a traversal of [es] meets a start-tag and an end-tag that
    both carry the application tag. *)
Definition both_observed (es : list XmlElement) : bool :=
  existsb (λ e, match e with
                | StartXmlTagElement tag =>
                    String.eqb tag ANDROID_MANIFEST_TAG_APPLICATION
                | _ => false
                end) es
  && existsb (λ e, match e with
                   | EndXmlTagElement tag =>
                       String.eqb tag ANDROID_MANIFEST_TAG_APPLICATION
                   | _ => false
                   end) es.

End Apk.

(** * Properties *)

(** ** Vocabulary of the statements *)

(** The world after further calls were made and nothing else changed. *)
Definition traced (w : World) (cs : list call) : World :=
  {| fs := fs w; faults := faults w; trace := trace w ++ cs |}.

(** The listing the archiver derives from the members of a container: each
    name as it arrives through the 256-byte name buffer, with its sizes. *)
Definition listed (es : list zip_entry) : list ZipArchiver.PathAndFileInfo :=
  (λ e, (CString.from_buffer 256 (e_name e), e_info e)) <$> es.

(** The member a lookup by [name] lands on: the first one so named. *)
Definition member_of (es : list zip_entry) (name : string)
  : option zip_entry :=
  i ← Minizip.locate name es; es !! i.

(** The calls [extractMemberBytes] makes up to the read cursor. *)
Definition lookup_calls (zip name : string) : list call :=
  [CallUnzOpen zip; CallUnzGoToFirstFile; CallUnzOpen zip;
   CallUnzLocateFile (CString.c_str name)].

(** What [extractMemberBytes] does on a container with members [es], read
    off the members directly. *)
Definition member_bytes_of (zip : string) (es : list zip_entry)
    (name : string) (w : World) : outcome (string * bytes) * World :=
  if bool_decide (name ∈ (listed es).*1) then
    match member_of es (CString.c_str name) with
    | None =>
        (Throws ZipArchiver.not_in_archive_error,
         traced w (lookup_calls zip name))
    | Some e =>
        if e_open_rc e =? Minizip.MZ_OK then
          let n := N.to_nat (uncompressed_size (e_info e)) in
          let len := Int.to_uint32 (Z.of_nat n) in
          let got := take (Z.to_nat len) (e_data e) in
          let w' :=
            traced w (lookup_calls zip name ++ [CallUnzReadCurrentFile len]) in
          if Int.to_uint32 (Z.of_nat (length got)) =? len
          then (Returns (name, got ++ drop (length got) (zero_bytes n)), w')
          else (Throws ZipArchiver.short_read_error, w')
        else
          (Throws (logic_error "unable to open zip entry in archive"),
           traced w (lookup_calls zip name))
    end
  else
    (Throws ZipArchiver.not_in_archive_error,
     traced w [CallUnzOpen zip; CallUnzGoToFirstFile]).

(** The handle [zf] after the bytes [d] joined its member write session. *)
Definition with_session (zf : Minizip.zipFile) (name : string) (d : bytes)
  : Minizip.zipFile :=
  {| Minizip.zf_path := Minizip.zf_path zf;
     Minizip.zf_entries := Minizip.zf_entries zf;
     Minizip.zf_current := Some (name, d) |}.

(** A stream that can be read to its end: all state bits clear, and its
    source ends with end of file. *)
Definition healthy (s : Istream.istream) : Prop :=
  Istream.good s = true ∧ Istream.source_fails s = false.

(** The member [zipCloseFileInZip] records for a session named [name] that
    received the bytes [d]. *)
Definition new_member (name : string) (d : bytes) : zip_entry :=
  {| e_name := name;
     e_info := {| uncompressed_size := N.of_nat (length d);
                  compressed_size := N.of_nat (length d) |};
     e_open_rc := Minizip.MZ_OK;
     e_data := d |}.

(** [openZipFile] succeeds on [zip] and the handle starts from the members
    [es]: either [zip] is a container holding [es], or nothing is at [zip],
    a file can be created there and [es] is empty. *)
Definition opens_with (f : gmap string node) (zip : string)
    (es : list zip_entry) : Prop :=
  f !! zip = Some (ZipArchive es)
  ∨ (f !! zip = None ∧ Filesystem.ofstream_opens f zip = true ∧ es = []).

(** The environment refuses neither the member write session nor any
    chunk. *)
Definition cooperative (flt : Faults) : Prop :=
  openNewFile_rc flt = Minizip.ZIP_OK ∧ write_rcs flt = [].

(** How often a run walked the directory of a container: every listing
    starts with one [unzGoToFirstFile]. *)
Definition is_listing_walk (c : call) : bool :=
  match c with
  | CallUnzGoToFirstFile => true
  | _ => false
  end.

Definition listing_reads (cs : list call) : nat :=
  length (filter (λ c, is_listing_walk c = true) cs).

(** The member names a run asked the library to locate, in order. *)
Definition located_name (c : call) : option string :=
  match c with
  | CallUnzLocateFile name => Some name
  | _ => None
  end.

Definition located_names (cs : list call) : list string :=
  omap located_name cs.

(** A call of the copy loop: a chunk write of at least one byte and at most
    [n] bytes. *)
Definition chunk_write_within (n : nat) (c : call) : Prop :=
  match c with
  | CallZipWriteInFileInZip len => (0 < len ≤ n)%nat
  | _ => False
  end.

(** The member write session of a handle after [d] more bytes joined it. *)
Definition session_grown (cur : option (string * bytes)) (d : bytes)
  : option (string * bytes) :=
  match cur with
  | Some (name, x) => Some (name, x ++ d)
  | None => None
  end.

(** ** Sample worlds and packages *)

Module Samples.

Import ZipArchiver.

Definition text (s : string) : bytes := String.list_byte_of_string s.

(** The [BUFSIZ] of the musl C library the WebAssembly build links. *)
Definition BUFSIZ : nat := 1024.

Definition no_faults : Faults :=
  {| openNewFile_rc := Minizip.ZIP_OK; write_rcs := [];
     ofstream_limit := None |}.

Definition archiver : ZipArchiver := {| zipPath_ := "app.apk" |}.

Definition hello : zip_entry := new_member "a.txt" (text "hello").
Definition readme : zip_entry := new_member "b.txt" (text "read me").


Definition world_of (f : gmap string node) (flt : Faults) : World :=
  {| fs := f; faults := flt; trace := [] |}.

Definition plain_files : gmap string node :=
  {[ "out" := Directory; "notes.txt" := PlainFile (text "notes") ]}.

(** No container yet. *)
Definition fresh : World := world_of plain_files no_faults.

(** A container with the two members [a.txt] and [b.txt]. *)
Definition stocked : World :=
  world_of (<["app.apk" := ZipArchive [hello; readme]]> plain_files)
           no_faults.



(** The environment refuses the member write session. *)
Definition refusing_session : World :=
  world_of plain_files
           {| openNewFile_rc := Minizip.ZIP_ERRNO; write_rcs := [];
              ofstream_limit := None |}.

(** The environment accepts the first chunk and refuses the second. *)
Definition refusing_second_chunk : World :=
  world_of plain_files
           {| openNewFile_rc := Minizip.ZIP_OK;
              write_rcs := [Minizip.ZIP_OK; Minizip.ZIP_ERRNO];
              ofstream_limit := None |}.

Definition letters (n : nat) : bytes := replicate n Byte.x41.

(** [a.txt], a NUL, [bak]: a name [c_str()] cuts to [a.txt]. *)
Definition nul_name : string :=
  ("a.txt" ++ String Ascii.zero "bak")%string.

(** A member name of 300 characters. *)
Definition long_name : string :=
  string_of_list_ascii (replicate 300 "a"%char).

Definition long_named : World :=
  world_of (<["app.apk" := ZipArchive [new_member long_name (text "x")]]>
              plain_files) no_faults.

(** Packages for the orchestrator: the file list, the manifest bytes and
    a decoder that maps the manifest's first byte to a document. *)
Definition complete : list BinaryXml.XmlElement :=
  [BinaryXml.StartXmlTagElement "manifest";
   BinaryXml.StartXmlTagElement "application";
   BinaryXml.EndXmlTagElement "application";
   BinaryXml.EndXmlTagElement "manifest"].

Definition unclosed : list BinaryXml.XmlElement :=
  [BinaryXml.StartXmlTagElement "manifest";
   BinaryXml.StartXmlTagElement "application";
   BinaryXml.EndXmlTagElement "manifest"].

Definition broken : list BinaryXml.XmlElement :=
  [BinaryXml.StartXmlTagElement "manifest";
   BinaryXml.InvalidXmlTagElement "bad chunk";
   BinaryXml.StartXmlTagElement "application"].

Definition decode (contents : bytes) : BinaryXml.BinaryXml :=
  {| BinaryXml.elements :=
       match contents with
       | Byte.x01 :: _ => complete
       | Byte.x02 :: _ => unclosed
       | Byte.x03 :: _ => broken
       | _ => []
       end |}.

Definition getFiles (apkPath : string) : list string :=
  if String.eqb apkPath "bare.apk" then ["classes.dex"]
  else ["classes.dex"; "AndroidManifest.xml"].

Definition getFileContents (apkPath name : string) : bytes :=
  if String.eqb apkPath "complete.apk" then [Byte.x01]
  else if String.eqb apkPath "unclosed.apk" then [Byte.x02]
  else if String.eqb apkPath "broken.apk" then [Byte.x03]
  else if String.eqb apkPath "plain.apk" then [Byte.x00]
  else [].

Definition makeDebuggable (apkPath : string) : outcome unit :=
  Apk.makeDebuggable getFiles getFileContents decode
    {| Apk.apkPath_ := apkPath |}.



End Samples.

(** ** Fixed-width integers and C strings *)

Lemma to_uint32_small z : 0 ≤ z < 2 ^ 32 → Int.to_uint32 z = z.
Proof. intros Hz. unfold Int.to_uint32. apply Z.mod_small. exact Hz. Qed.

Lemma to_uint32_to_int32 z : Int.to_uint32 (Int.to_int32 z) = Int.to_uint32 z.
Proof.
  unfold Int.to_uint32, Int.to_int32.
  rewrite Zminus_mod_idemp_l.
  f_equal. lia.
Qed.

Lemma to_uint32_le z : 0 ≤ z → Int.to_uint32 z ≤ z.
Proof. intros Hz. unfold Int.to_uint32. apply Z.mod_le; lia. Qed.

Lemma c_str_idempotent s : CString.c_str (CString.c_str s) = CString.c_str s.
Proof.
  induction s as [|c s IH]; simpl; [done|].
  destruct (Ascii.eqb c Ascii.zero) eqn:Hc; simpl; [done|].
  rewrite Hc, IH. done.
Qed.

Lemma prefix_all n s : (String.length s ≤ n)%nat → CString.prefix n s = s.
Proof.
  revert n. induction s as [|c s IH]; intros [|n] Hn; simpl in *; try done.
  - lia.
  - rewrite IH; [done|lia].
Qed.

Lemma from_buffer_fits n s : CString.fits n s → CString.from_buffer n s = s.
Proof.
  intros [Hc Hn]. unfold CString.from_buffer.
  rewrite prefix_all by lia. exact Hc.
Qed.

(** ** The listing loop *)

Lemma traced_nil w : traced w [] = w.
Proof. destruct w. unfold traced. simpl. rewrite app_nil_r. done. Qed.

Lemma traced_app w cs cs' : traced (traced w cs) cs' = traced w (cs ++ cs').
Proof. unfold traced. simpl. rewrite app_assoc. done. Qed.

Lemma entries_loop_spec es fuel i acc w :
  (i < length es)%nat →
  fuel = (length es - i)%nat →
  ZipArchiver.entries_loop fuel
    {| Minizip.uz_entries := es; Minizip.uz_cursor := Some i |} acc w
  = (Returns (acc ++ listed (drop i es)), w).
Proof.
  revert i acc. induction fuel as [|fuel IH]; intros i acc Hi Hfuel; [lia|].
  destruct (lookup_lt_is_Some_2 es i Hi) as [e He].
  cbn [ZipArchiver.entries_loop].
  unfold Minizip.unzGetCurrentFileInfo64, Minizip.current,
    Minizip.unzGoToNextFile.
  cbn [Minizip.uz_cursor Minizip.uz_entries mbind option_bind].
  rewrite He. cbn [Z.eqb Minizip.UNZ_OK].
  rewrite (drop_S es e i He). 
  case_bool_decide as Hnext.
  - cbn [Z.eqb Minizip.UNZ_OK].
    rewrite IH by lia.
    rewrite <- app_assoc. done.
  - cbn. rewrite drop_ge by lia. done.
Qed.

Lemma getAllEntries_of_container path es w :
  fs w !! path = Some (ZipArchive es) →
  ZipArchiver.getAllEntriesInZipFile path w
  = (Returns (listed es),
     traced w [CallUnzOpen path; CallUnzGoToFirstFile]).
Proof.
  intros Hfs.
  unfold ZipArchiver.getAllEntriesInZipFile, Minizip.unzOpen,
    Minizip.unzGoToFirstFile, bind, record, get_fs, ret.
  cbn. rewrite Hfs. cbn.
  destruct es as [|e es].
  - cbn. rewrite <- app_assoc. done.
  - cbn [Minizip.uz_entries Z.eqb Minizip.UNZ_OK].
    rewrite (entries_loop_spec (e :: es) _ 0 []); cbn; try lia.
    unfold traced. cbn. rewrite <- app_assoc. done.
Qed.

Lemma getAllEntries_of_other path w :
  (∀ es, fs w !! path ≠ Some (ZipArchive es)) →
  ZipArchiver.getAllEntriesInZipFile path w
  = (Returns [], traced w [CallUnzOpen path]).
Proof.
  intros Hfs.
  unfold ZipArchiver.getAllEntriesInZipFile, Minizip.unzOpen,
    bind, record, get_fs, ret.
  cbn. destruct (fs w !! path) as [[| |es]|] eqn:E; try done.
  destruct (Hfs es). done.
Qed.

(** ** Locating a member *)

Lemma locate_Some name es i :
  Minizip.locate name es = Some i →
  ∃ e, es !! i = Some e ∧ e_name e = name
       ∧ Forall (λ e', e_name e' ≠ name) (take i es).
Proof.
  revert i. induction es as [|e es IH]; intros i; cbn; [done|].
  destruct (String.eqb (e_name e) name) eqn:E.
  - intros [= <-]. exists e. apply String.eqb_eq in E. cbn. auto.
  - destruct (Minizip.locate name es) as [j|] eqn:L; cbn; [|done].
    intros [= <-]. destruct (IH j eq_refl) as (e' & He' & Hn & Hall).
    exists e'. cbn. split_and!; try done.
    constructor; [|done]. apply String.eqb_neq. done.
Qed.

Lemma locate_None name es :
  Minizip.locate name es = None ↔ Forall (λ e, e_name e ≠ name) es.
Proof.
  induction es as [|e es IH]; cbn; [split; auto|].
  destruct (String.eqb (e_name e) name) eqn:E.
  - apply String.eqb_eq in E. split; [done|]. inversion 1; done.
  - apply String.eqb_neq in E.
    destruct (Minizip.locate name es); cbn.
    + split; [done|]. inversion 1 as [|? ? ? Hall]; subst.
      apply IH in Hall. done.
    + split; [|done]. intros _. constructor; [done|]. apply IH. done.
Qed.

Lemma locate_is_Some name es :
  is_Some (Minizip.locate name es) ↔ name ∈ e_name <$> es.
Proof.
  split.
  - intros [i Hi]. apply locate_Some in Hi as (e & He & Hn & _).
    apply list_elem_of_fmap. exists e. split; [done|].
    eapply list_elem_of_lookup_2. done.
  - intros Hin. destruct (Minizip.locate name es) eqn:L; [eauto|].
    apply locate_None in L. apply list_elem_of_fmap in Hin as (e & -> & He).
    rewrite Forall_forall in L. destruct (L e He). done.
Qed.

Lemma locate_app_fresh name es e :
  Forall (λ e', e_name e' ≠ name) es → e_name e = name →
  Minizip.locate name (es ++ [e]) = Some (length es).
Proof.
  intros Hall He. induction Hall as [|e' es Hne Hall IH]; cbn.
  - rewrite He, String.eqb_refl. done.
  - apply String.eqb_neq in Hne. rewrite Hne, IH. done.
Qed.

Lemma listed_names_fit es :
  Forall (λ e, CString.fits 256 (e_name e)) es →
  (listed es).*1 = e_name <$> es.
Proof.
  unfold listed.
  induction 1 as [|e es He Hall IH]; [done|].
  rewrite !fmap_cons. cbn [fst].
  rewrite from_buffer_fits by done. f_equal. exact IH.
Qed.

(** ** Reading one member *)

Lemma find_listed name (l : list ZipArchiver.PathAndFileInfo) :
  match List.find (λ entry, String.eqb (fst entry) name) l with
  | Some p => fst p = name ∧ name ∈ l.*1
  | None => name ∉ l.*1
  end.
Proof.
  induction l as [|[n i] l IH]; cbn.
  - apply not_elem_of_nil.
  - destruct (String.eqb n name) eqn:E.
    + apply String.eqb_eq in E. cbn. split; [done|]. subst. left.
    + apply String.eqb_neq in E.
      destruct (List.find _ l) as [p|].
      * destruct IH. split; [done|]. right. done.
      * apply not_elem_of_cons. done.
Qed.

Lemma extractMemberBytes_of_container self es name w :
  fs w !! ZipArchiver.zipPath_ self = Some (ZipArchive es) →
  ZipArchiver.extractMemberBytes self name w
  = member_bytes_of (ZipArchiver.zipPath_ self) es name w.
Proof.
  intros Hfs.
  unfold ZipArchiver.extractMemberBytes, member_bytes_of, bind at 1.
  rewrite (getAllEntries_of_container _ es) by done.
  pose proof (find_listed name (listed es)) as Hfind.
  destruct (List.find _ (listed es)) as [p|].
  - destruct Hfind as [Hp Hin]. rewrite bool_decide_eq_true_2 by done.
    rewrite Hp.
    unfold Minizip.unzOpen, Minizip.unzLocateFile, member_of,
      bind, record, get_fs, ret, throw.
    cbn [fs traced]. rewrite Hfs. cbn [Minizip.uz_entries mbind option_bind].
    destruct (Minizip.locate (CString.c_str name) es) as [i|] eqn:L.
    + cbn [negb Z.eqb Minizip.UNZ_OK option_bind].
      unfold Minizip.unzGetCurrentFileInfo, Minizip.unzOpenCurrentFile,
        Minizip.unzReadCurrentFile, Minizip.current, bind, record, ret.
      cbn [Minizip.uz_cursor Minizip.uz_entries mbind option_bind].
      apply locate_Some in L as (e & He & _). rewrite He.
      cbn [negb Z.eqb Minizip.UNZ_OK].
      destruct (e_open_rc e =? Minizip.MZ_OK); cbn [negb].
      * unfold zero_bytes. rewrite length_replicate.
        rewrite to_uint32_to_int32.
        unfold lookup_calls, traced. cbn [fs faults trace].
        rewrite <- !app_assoc. cbn [app].
        destruct (_ =? _); cbn [negb]; done.
      * unfold lookup_calls, traced. cbn [fs faults trace].
        rewrite <- !app_assoc. done.
    + cbn. unfold lookup_calls, traced. cbn.
      rewrite <- !app_assoc. done.
  - rewrite bool_decide_eq_false_2 by done. done.
Qed.

Lemma extractMemberBytes_of_other self name w :
  (∀ es, fs w !! ZipArchiver.zipPath_ self ≠ Some (ZipArchive es)) →
  ZipArchiver.extractMemberBytes self name w
  = (Throws ZipArchiver.not_in_archive_error,
     traced w [CallUnzOpen (ZipArchiver.zipPath_ self)]).
Proof.
  intros Hfs. unfold ZipArchiver.extractMemberBytes, bind.
  rewrite getAllEntries_of_other by done. done.
Qed.

Lemma member_buffer_length (data : bytes) n :
  let len := Int.to_uint32 (Z.of_nat n) in
  let got := take (Z.to_nat len) data in
  length (got ++ drop (length got) (zero_bytes n)) = n.
Proof.
  intros len got.
  assert (length got ≤ n)%nat.
  { unfold got. rewrite length_take.
    pose proof (to_uint32_le (Z.of_nat n)). lia. }
  unfold zero_bytes.
  rewrite length_app, length_drop, length_replicate. lia.
Qed.


Lemma extractMemberBytes_returns self name w name' buf w' :
  ZipArchiver.extractMemberBytes self name w = (Returns (name', buf), w') →
  ∃ es e,
    fs w !! ZipArchiver.zipPath_ self = Some (ZipArchive es)
    ∧ name ∈ (listed es).*1
    ∧ member_of es (CString.c_str name) = Some e
    ∧ name' = name
    ∧ length buf = N.to_nat (uncompressed_size (e_info e))
    ∧ w' = traced w (lookup_calls (ZipArchiver.zipPath_ self) name ++
                     [CallUnzReadCurrentFile
                        (Int.to_uint32 (Z.of_nat (length buf)))]).
Proof.
  destruct (fs w !! ZipArchiver.zipPath_ self) as [[| |es]|] eqn:Hfs.
  1,2,4: rewrite extractMemberBytes_of_other by (intros es; congruence);
         done.
  rewrite (extractMemberBytes_of_container _ es) by done.
  unfold member_bytes_of.
  case_bool_decide as Hin; [|done].
  destruct (member_of es (CString.c_str name)) as [e|] eqn:He; [|done].
  destruct (e_open_rc e =? Minizip.MZ_OK); [|done].
  destruct (_ =? _); [|done].
  intros [= <- <- <-]. exists es, e.
  rewrite member_buffer_length. done.
Qed.


(** C5 -- destination precondition.  When the destination path exists and
    is not a directory, [extract] and [extractAll] both raise the
    destination error and leave the world as it was: no call into the
    archive library was made and no file was written. *)
Theorem extract_invalid_destination self name path w :
  Filesystem.exists_ (fs w) path = true →
  Filesystem.is_directory (fs w) path = false →
  ZipArchiver.extract self name path w
  = (Throws ZipArchiver.destination_error, w)
  ∧ ZipArchiver.extractAll self path w
    = (Throws ZipArchiver.destination_error, w).
Proof.
  intros Hex Hdir.
  unfold ZipArchiver.extract, ZipArchiver.extractAll, bind, get_fs, throw.
  cbn. rewrite Hex, Hdir. done.
Qed.


(** ** The copy loop of [add] *)

Lemma write_loop_at_eof BUFSIZ fuel result st zf w :
  Istream.eofbit st = true →
  ∃ st', ZipArchiver.write_loop BUFSIZ (S fuel) result st zf w
         = (Returns (st', zf), w).
Proof.
  intros Heof. destruct st as [p sf e f b g]. cbn in Heof. subst e.
  cbn [ZipArchiver.write_loop].
  unfold Istream.read, Istream.good. cbn [Istream.eofbit negb andb].
  cbn [Istream.gcount Istream.eof Istream.eofbit negb andb].
  rewrite (bool_decide_eq_false_2 (0 < 0)%nat) by lia.
  rewrite andb_true_r, andb_false_r. unfold bind, ret.
  rewrite andb_false_r. eauto.
Qed.

Lemma zipWrite_no_fault zf name d chunk w :
  write_rcs (faults w) = [] →
  Minizip.zf_current zf = Some (name, d) →
  Minizip.zipWriteInFileInZip zf chunk w
  = (Returns (Minizip.ZIP_OK, with_session zf name (d ++ chunk)),
     traced w [CallZipWriteInFileInZip (length chunk)]).
Proof.
  intros Hrc Hcur.
  unfold Minizip.zipWriteInFileInZip, bind, record, get_faults, put_faults,
    ret, with_session, traced.
  cbn [fs faults trace]. rewrite Hrc, Hcur. cbn.
  destruct w as [f [o wr l] t]. cbn in *. subst wr. done.
Qed.

Lemma write_loop_healthy BUFSIZ fuel st zf name d w :
  (0 < BUFSIZ)%nat →
  healthy st →
  Minizip.zf_current zf = Some (name, d) →
  write_rcs (faults w) = [] →
  (length (Istream.pending st) < fuel)%nat →
  ∃ st' cs,
    ZipArchiver.write_loop BUFSIZ fuel Minizip.ZIP_OK st zf w
    = (Returns (st', with_session zf name (d ++ Istream.pending st)),
       traced w cs).
Proof.
  intros HB. revert st zf d w.
  induction fuel as [|fuel IH]; intros st zf d w [Hgood Hsrc] Hcur Hrc Hfuel;
    [lia|].
  destruct st as [p sf e f b g]. unfold Istream.good in Hgood.
  cbn in Hgood, Hsrc, Hfuel. subst sf.
  destruct e, f, b; try discriminate Hgood. clear Hgood.
  cbn [ZipArchiver.write_loop]. unfold Istream.read, Istream.good.
  cbn [Istream.gcount Istream.eof Istream.eofbit Istream.pending
       Istream.source_fails Istream.failbit Istream.badbit negb andb].
  rewrite length_take.
  destruct (decide (length p < BUFSIZ)%nat) as [Hshort|Hfull].
  - (* the last, short chunk: the stream reaches end of file *)
    rewrite Nat.min_r by lia.
    rewrite !(bool_decide_eq_true_2 (length p < BUFSIZ)%nat) by done.
    cbn [negb andb].
    rewrite (take_ge p BUFSIZ) by lia. rewrite (take_ge p (length p)) by lia.
    case_bool_decide as Hsome.
    + unfold bind at 1.
      rewrite (zipWrite_no_fault zf name d) by done.
      cbn [Z.eqb Minizip.ZIP_OK andb].
      destruct fuel as [|fuel]; [lia|].
      edestruct (write_loop_at_eof BUFSIZ fuel 0) as [st' Hloop];
        [|rewrite Hloop; eauto].
      done.
    + unfold bind, ret. cbn [Z.eqb Minizip.ZIP_OK andb].
      assert (p = []) as -> by (destruct p; cbn in *; [done|lia]).
      rewrite app_nil_r. eexists _, [].
      rewrite traced_nil.
      destruct zf. unfold with_session. cbn in *. rewrite Hcur. done.
  - (* a full chunk *)
    rewrite Nat.min_l by lia.
    rewrite !(bool_decide_eq_false_2 (length p < BUFSIZ)%nat) by done.
    rewrite (bool_decide_eq_false_2 (BUFSIZ < BUFSIZ)%nat) by lia.
    rewrite !(bool_decide_eq_true_2 (0 < BUFSIZ)%nat) by done.
    cbn [negb andb].
    rewrite (take_ge (take _ _)) by (rewrite length_take; lia).
    unfold bind at 1.
    rewrite (zipWrite_no_fault zf name d) by done.
    cbn [Z.eqb Minizip.ZIP_OK andb].
    edestruct (IH {| Istream.pending := drop BUFSIZ p;
                     Istream.source_fails := false;
                     Istream.eofbit := false; Istream.failbit := false;
                     Istream.badbit := false; Istream.gcount := BUFSIZ |}
                 (with_session zf name (d ++ take BUFSIZ p))
                 (d ++ take BUFSIZ p)
                 (traced w [CallZipWriteInFileInZip (length (take BUFSIZ p))]))
      as (st' & cs & Hloop); cycle -1.
    + rewrite Hloop. cbn [Istream.pending].
      rewrite <- app_assoc, take_drop, traced_app.
      unfold with_session. cbn. eauto.
    + split; done.
    + done.
    + done.
    + cbn [Istream.pending]. rewrite length_drop. lia.
Qed.

(** ** [add] on a cooperative environment *)

Lemma openZipFile_opens zip es w :
  opens_with (fs w) zip es →
  ZipArchiver.openZipFile zip w
  = (Returns {| Minizip.zf_path := zip; Minizip.zf_entries := es;
                Minizip.zf_current := None |},
     traced w [CallZipOpen zip]).
Proof.
  unfold ZipArchiver.openZipFile, Minizip.zipOpen, Filesystem.exists_,
    bind, record, get_fs, ret, traced.
  cbn [fs faults trace].
  intros [Hfs|(Hfs & Hopen & ->)]; rewrite Hfs.
  - rewrite bool_decide_eq_true_2 by eauto. done.
  - rewrite bool_decide_eq_false_2 by (intros [? ?]; done).
    rewrite Hopen. done.
Qed.

Lemma bind_returns {A B} (m : M A) (k : A → M B) w a w' :
  m w = (Returns a, w') → bind m k w = k a w'.
Proof. unfold bind. intros ->. done. Qed.

Lemma zipOpenNewFile_cooperative zf name w :
  openNewFile_rc (faults w) = Minizip.ZIP_OK →
  Minizip.zipOpenNewFileInZip_64 zf name w
  = (Returns (Minizip.ZIP_OK, with_session zf name []),
     traced w [CallZipOpenNewFileInZip name]).
Proof.
  intros Hrc.
  unfold Minizip.zipOpenNewFileInZip_64, bind, record, get_faults, ret.
  cbn [faults]. rewrite Hrc. done.
Qed.

Lemma add_cooperative BUFSIZ self st name es w :
  (0 < BUFSIZ)%nat →
  healthy st →
  opens_with (fs w) (ZipArchiver.zipPath_ self) es →
  cooperative (faults w) →
  ∃ st' w1,
    ZipArchiver.add BUFSIZ self st name w = (Returns st', w1)
    ∧ fs w1 = <[ZipArchiver.zipPath_ self :=
                  ZipArchive
                    (es ++ [new_member (CString.c_str name)
                              (Istream.pending st)])]> (fs w).
Proof.
  intros HB Hst Hopen [Hnew Hwr].
  set (zf := {| Minizip.zf_path := ZipArchiver.zipPath_ self;
                Minizip.zf_entries := es; Minizip.zf_current := None |}).
  set (n := CString.c_str name).
  destruct (write_loop_healthy BUFSIZ (S (length (Istream.pending st))) st
              (with_session zf n []) n []
              (traced (traced w [CallZipOpen (ZipArchiver.zipPath_ self)])
                      [CallZipOpenNewFileInZip n]))
    as (st' & cs & Hloop); [done|done|done|done|lia|].
  unfold ZipArchiver.add.
  rewrite (bind_returns _ _ _ _ _ (openZipFile_opens _ es w Hopen)).
  fold zf n.
  erewrite bind_returns by (apply zipOpenNewFile_cooperative; done).
  cbn [Z.eqb Minizip.ZIP_OK].
  erewrite bind_returns; cycle 1.
  { erewrite bind_returns by exact Hloop. reflexivity. }
  unfold bind, Minizip.zipClose, Minizip.zipCloseFileInZip, with_session,
    get_fs, put_fs, ret.
  cbn. eauto.
Qed.

Lemma write_loop_total BUFSIZ fuel result st zf w :
  (length (Istream.pending st) < fuel)%nat →
  ∃ r w', ZipArchiver.write_loop BUFSIZ fuel result st zf w = (Returns r, w').
Proof.
  revert result st zf w.
  induction fuel as [|fuel IH]; intros result st zf w Hfuel; [lia|].
  cbn [ZipArchiver.write_loop].
  destruct (Istream.read BUFSIZ st) as [readBuffer st1] eqn:Hread.
  assert (bool_decide (0 < Istream.gcount st1)%nat = true →
          length (Istream.pending st1) < fuel)%nat as Hshrinks.
  { intros Hsome%bool_decide_eq_true.
    unfold Istream.read in Hread.
    destruct (Istream.good st); injection Hread as <- <-;
      cbn [Istream.gcount Istream.pending] in *; [|lia].
    rewrite length_take in Hsome. rewrite length_drop. lia. }
  unfold bind, ret.
  destruct (_ && negb (Istream.good st1)).
  - cbn [Z.eqb Minizip.ZIP_ERRNO Minizip.ZIP_OK andb]. eauto.
  - destruct (bool_decide (0 < Istream.gcount st1)%nat) eqn:Hsome.
    + unfold Minizip.zipWriteInFileInZip, bind, record, get_faults,
        put_faults, ret.
      destruct (_ =? Minizip.ZIP_OK) eqn:Hrc.
      * cbn [Z.eqb Minizip.ZIP_OK andb]. apply IH. auto.
      * rewrite Hrc. cbn [andb]. eauto.
    + rewrite andb_false_r. eauto.
Qed.

Lemma openZipFile_refused zip w :
  (∀ es, ¬ opens_with (fs w) zip es) →
  ZipArchiver.openZipFile zip w
  = (Throws (logic_error "unable to open zip file"),
     traced w [CallZipOpen zip]).
Proof.
  intros Hno.
  unfold ZipArchiver.openZipFile, Minizip.zipOpen, Filesystem.exists_,
    bind, record, get_fs, ret, throw, traced.
  cbn [fs faults trace].
  destruct (fs w !! zip) as [[| |es]|] eqn:Hfs.
  - rewrite bool_decide_eq_true_2 by eauto. done.
  - rewrite bool_decide_eq_true_2 by eauto. done.
  - destruct (Hno es). left. done.
  - rewrite bool_decide_eq_false_2 by (intros [? ?]; done).
    destruct (Filesystem.ofstream_opens (fs w) zip) eqn:Hopen; [|done].
    destruct (Hno []). right. done.
Qed.

(** Whatever the stream and the environment do, [add] raises nothing once
    the container handle is open. *)
Lemma add_returns_once_opened BUFSIZ self st name es w :
  opens_with (fs w) (ZipArchiver.zipPath_ self) es →
  ∃ st' w', ZipArchiver.add BUFSIZ self st name w = (Returns st', w').
Proof.
  intros Hopen. unfold ZipArchiver.add.
  rewrite (bind_returns _ _ _ _ _ (openZipFile_opens _ es w Hopen)).
  unfold bind at 1.
  unfold Minizip.zipOpenNewFileInZip_64 at 1, bind at 1, record, bind at 1,
    get_faults, ret at 1 2.
  destruct (_ =? Minizip.ZIP_OK) eqn:Hrc.
  - cbn [Z.eqb Minizip.ZIP_OK].
    unfold ZipArchiver.writeStreamToOpenZipFile.
    edestruct (write_loop_total BUFSIZ (S (length (Istream.pending st))))
      as ([st' zf'] & w' & Hloop); [|].
    2:{ unfold bind at 1. unfold bind at 1. rewrite Hloop.
        unfold bind, Minizip.zipClose, get_fs, put_fs, ret. eauto. }
    lia.
  - rewrite Hrc.
    unfold bind, Minizip.zipClose, get_fs, put_fs, ret. eauto.
Qed.

(** [add] never runs out of steps: it returns, or [openZipFile] throws. *)
Lemma add_total BUFSIZ self st name w :
  (∃ st' w', ZipArchiver.add BUFSIZ self st name w = (Returns st', w'))
  ∨ ZipArchiver.add BUFSIZ self st name w
    = (Throws (logic_error "unable to open zip file"),
       traced w [CallZipOpen (ZipArchiver.zipPath_ self)]).
Proof.
  destruct (fs w !! ZipArchiver.zipPath_ self) as [[| |es]|] eqn:Hfs.
  3:{ left. apply (add_returns_once_opened _ _ _ _ es). left. done. }
  1,2: right; unfold ZipArchiver.add, bind at 1;
       rewrite openZipFile_refused; [done|];
       intros es [?|(? & _)]; congruence.
  destruct (Filesystem.ofstream_opens (fs w) (ZipArchiver.zipPath_ self))
    eqn:Hopen.
  - left. apply (add_returns_once_opened _ _ _ _ []). right. done.
  - right. unfold ZipArchiver.add, bind at 1.
    rewrite openZipFile_refused; [done|].
    intros es [?|(_ & ? & _)]; congruence.
Qed.

(** C3 (amended) -- round trip.  On an environment that refuses no write,
    for a stream that reads to its end without error and is shorter than
    2^32 bytes, and for a member name that survives [c_str()] and the
    256-byte name buffer and is not yet a member of the container, [add]
    followed by the member-byte extraction yields exactly the bytes of the
    stream. *)
Theorem add_then_extract_round_trip BUFSIZ self st name es w :
  (0 < BUFSIZ)%nat →
  healthy st →
  Z.of_nat (length (Istream.pending st)) < 2 ^ 32 →
  opens_with (fs w) (ZipArchiver.zipPath_ self) es →
  cooperative (faults w) →
  CString.fits 256 name →
  name ∉ e_name <$> es →
  ∃ st' w1 w2,
    ZipArchiver.add BUFSIZ self st name w = (Returns st', w1)
    ∧ ZipArchiver.extractMemberBytes self name w1
      = (Returns (name, Istream.pending st), w2).
Proof.
  intros HB Hst Hlen Hopen Hcoop Hfits Hfresh.
  destruct (add_cooperative BUFSIZ self st name es w)
    as (st' & w1 & Hadd & Hfs); try done.
  exists st', w1. rewrite Hadd.
  destruct Hfits as [Hc Hn]. rewrite Hc in Hfs.
  set (m := new_member name (Istream.pending st)) in *.
  assert (fs w1 !! ZipArchiver.zipPath_ self = Some (ZipArchive (es ++ [m])))
    as Hzip by (rewrite Hfs; apply lookup_insert_eq).
  rewrite (extractMemberBytes_of_container _ _ _ _ Hzip).
  unfold member_bytes_of.
  rewrite bool_decide_eq_true_2; cycle 1.
  { unfold listed. rewrite !fmap_app. apply elem_of_app. right.
    rewrite !fmap_cons. cbn [fst e_name m new_member].
    rewrite from_buffer_fits by done. left. }
  assert (Forall (λ e', e_name e' ≠ name) es) as Hall.
  { apply Forall_forall. intros e He Heq. apply Hfresh.
    apply list_elem_of_fmap. eauto. }
  unfold member_of. rewrite Hc.
  rewrite (locate_app_fresh name es m) by done. cbn [mbind option_bind].
  rewrite lookup_app_r by lia. rewrite Nat.sub_diag. cbn [lookup list_lookup].
  cbn [e_open_rc m new_member Z.eqb Minizip.MZ_OK e_info uncompressed_size
       e_data].
  rewrite Nat2N.id.
  rewrite (to_uint32_small (Z.of_nat (length (Istream.pending st)))) by lia.
  rewrite Nat2Z.id, take_ge by lia.
  rewrite to_uint32_small by lia. rewrite Z.eqb_refl.
  rewrite drop_ge by (unfold zero_bytes; rewrite length_replicate; lia).
  rewrite app_nil_r. eauto.
Qed.

(** ** [contains] against the listing *)

(** C7 (amended) -- existence symmetry.  For a member name without an
    embedded NUL and a container whose member names all pass through the
    256-byte name buffer unchanged, [contains] returns, and returns true
    exactly when the name is among the names of the listing.  (A path that
    is not a container gives false and an empty listing.) *)
Theorem contains_iff_listed self name w :
  CString.c_str name = name →
  (∀ es, fs w !! ZipArchiver.zipPath_ self = Some (ZipArchive es) →
         Forall (λ e, CString.fits 256 (e_name e)) es) →
  ∃ b l,
    fst (ZipArchiver.contains self name w) = Returns b
    ∧ fst (ZipArchiver.getAllEntriesInZipFile (ZipArchiver.zipPath_ self) w)
      = Returns l
    ∧ (b = true ↔ name ∈ l.*1).
Proof.
  intros Hc Hfit.
  destruct (fs w !! ZipArchiver.zipPath_ self) as [[| |es]|] eqn:Hfs.
  1,2,4: exists false, [];
         rewrite getAllEntries_of_other by (intros es; congruence);
         unfold ZipArchiver.contains, Minizip.unzOpen, bind, record, get_fs,
           ret; cbn [fs]; rewrite Hfs;
         (split_and!; [done|done|]); split; [done|];
         intros []%not_elem_of_nil.
  rewrite (getAllEntries_of_container _ es) by done.
  unfold ZipArchiver.contains, Minizip.unzOpen, Minizip.unzLocateFile,
    bind, record, get_fs, ret.
  cbn [fs]. rewrite Hfs, Hc. cbn [Minizip.uz_entries].
  pose proof (locate_is_Some name es) as Hloc.
  rewrite <- (listed_names_fit es) in Hloc by auto.
  destruct (Minizip.locate name es) as [i|]; cbn.
  - eexists _, _. split_and!; [done..|]. split; [|done].
    intros _. apply Hloc. eauto.
  - eexists _, _. split_and!; [done..|]. split; [done|].
    intros Hin. apply Hloc in Hin as [? ?]. done.
Qed.

(** ** [extractAll] and the listing *)

Lemma extract_returns self name path w w' :
  ZipArchiver.extract self name path w = (Returns (), w') →
  ∃ len target,
    trace w' = trace w ++ lookup_calls (ZipArchiver.zipPath_ self) name
                       ++ [CallUnzReadCurrentFile len; CallOfstream target].
Proof.
  unfold ZipArchiver.extract, bind at 1, get_fs at 1.
  destruct (negb _); [done|].
  unfold bind at 1.
  destruct (ZipArchiver.extractMemberBytes self name w)
    as [[[member buf]| |] w1] eqn:Hread; [|done..].
  apply extractMemberBytes_returns in Hread
    as (es & e & _ & _ & _ & -> & _ & ->).
  unfold Filesystem.ofstream_write_close, bind, record, get_fs, get_faults,
    put_fs, ret.
  cbn [fs faults trace traced].
  destruct (Filesystem.ofstream_opens _ _); intros [= <-]; cbn [trace];
    rewrite <- !app_assoc; eauto.
Qed.

Lemma listing_reads_app cs cs' :
  listing_reads (cs ++ cs') = (listing_reads cs + listing_reads cs')%nat.
Proof. unfold listing_reads. rewrite filter_app, length_app. done. Qed.

Lemma located_names_app cs cs' :
  located_names (cs ++ cs') = located_names cs ++ located_names cs'.
Proof. apply omap_app. Qed.

Lemma for_each_extract_returns self path l w w' :
  ZipArchiver.for_each
    (λ entry : ZipArchiver.PathAndFileInfo,
       ZipArchiver.extract self (fst entry) path) l w = (Returns (), w') →
  ∃ cs, trace w' = trace w ++ cs
        ∧ listing_reads cs = length l
        ∧ located_names cs = CString.c_str <$> l.*1.
Proof.
  revert w. induction l as [|[n i] l IH]; intros w; cbn [ZipArchiver.for_each].
  - intros [= <-]. exists []. rewrite app_nil_r. done.
  - unfold bind at 1. cbn [fst].
    destruct (ZipArchiver.extract self n path w) as [[[]| |] w1] eqn:Hone;
      [|done..].
    intros Hrest. apply IH in Hrest as (cs & Htr & Hreads & Hnames).
    apply extract_returns in Hone as (len & target & Hone).
    eexists. split; [rewrite Htr, Hone, <- !app_assoc; reflexivity|].
    rewrite app_assoc, listing_reads_app, located_names_app, Hreads, Hnames.
    done.
Qed.

(** C6 (amended) -- listing reads of [extractAll].  On a container with
    members [es], a run of [extractAll] that returns has located exactly
    the names of the listing it read at its start, in listing order, and
    has walked the container's directory once at the start and once more
    inside every per-member extraction: one plus the number of members. *)
Theorem extractAll_listing_reads self path es w w' :
  fs w !! ZipArchiver.zipPath_ self = Some (ZipArchive es) →
  ZipArchiver.extractAll self path w = (Returns (), w') →
  ∃ cs, trace w' = trace w ++ cs
        ∧ located_names cs = CString.c_str <$> (listed es).*1
        ∧ listing_reads cs = S (length es).
Proof.
  intros Hfs.
  unfold ZipArchiver.extractAll, bind at 1, get_fs at 1.
  destruct (negb _); [done|].
  erewrite bind_returns by (apply getAllEntries_of_container; done).
  intros Hloop. apply for_each_extract_returns in Hloop
    as (cs & Htr & Hreads & Hnames).
  exists ([CallUnzOpen (ZipArchiver.zipPath_ self); CallUnzGoToFirstFile]
          ++ cs).
  split_and!.
  - rewrite Htr. cbn [traced trace]. rewrite <- app_assoc. done.
  - rewrite located_names_app. exact Hnames.
  - rewrite listing_reads_app, Hreads. unfold listed.
    rewrite length_fmap. done.
Qed.

(** ** The manifest orchestrator *)

Lemma traverse_visitor path es :
  BinaryXml.traverse {| Apk.visitor_apkPath_ := path |} es
  = if existsb BinaryXml.is_invalid es
    then Throws (MalformedAndroidManifestException path)
    else Returns ().
Proof.
  induction es as [|e es IH]; [done|].
  destruct e as [tag|tag|err|tag]; cbn [BinaryXml.traverse existsb
    BinaryXml.is_invalid BinaryXml.dispatch orb]; try exact IH.
  - cbn. destruct (String.eqb tag _); exact IH.
  - cbn. destruct (String.eqb tag _); exact IH.
  - done.
Qed.

Lemma existsb_is_invalid es :
  existsb BinaryXml.is_invalid es = true
  ↔ Exists (λ e, BinaryXml.is_invalid e = true) es.
Proof.
  rewrite existsb_exists, Exists_exists.
  split; intros (e & He & Hinv); exists e; split; try done;
    by apply list_elem_of_In.
Qed.

(** C1 -- which error [makeDebuggable] raises.  It raises the missing
    manifest exception exactly when the manifest name is absent from the
    package's file list or the manifest's contents are empty; it raises
    the malformed manifest exception exactly when, the manifest being
    present and not empty, the existence probe finds no application tag
    or, the probe having succeeded, the traversal meets an invalid
    element; in every other case it returns normally. *)
Theorem makeDebuggable_outcome getFiles getFileContents decode self :
  let path := Apk.apkPath_ self in
  let located := Apk.ANDROID_MANIFEST ∈ getFiles path in
  let contents := getFileContents path Apk.ANDROID_MANIFEST in
  let xml := decode contents in
  let probe :=
    BinaryXml.hasElement xml Apk.ANDROID_MANIFEST_TAG_APPLICATION in
  let missing := ¬ located ∨ contents = [] in
  let probe_fails := located ∧ contents ≠ [] ∧ probe = false in
  let invalid_met :=
    located ∧ contents ≠ [] ∧ probe = true
    ∧ Exists (λ e, BinaryXml.is_invalid e = true) (BinaryXml.elements xml) in
  let result := Apk.makeDebuggable getFiles getFileContents decode self in
  (result = Throws (MissingAndroidManifestException path) ↔ missing)
  ∧ (result = Throws (MalformedAndroidManifestException path)
     ↔ probe_fails ∨ invalid_met)
  ∧ (¬ missing → ¬ (probe_fails ∨ invalid_met) → result = Returns ()).
Proof.
  intros path located contents xml probe missing probe_fails invalid_met.
  unfold Apk.makeDebuggable, BinaryXml.traverseElements.
  fold path. fold contents. fold xml. fold probe.
  rewrite traverse_visitor.
  pose proof (existsb_is_invalid (BinaryXml.elements xml)) as Hinv.
  subst missing probe_fails invalid_met located.
  case_bool_decide as Hloc; cbn [negb].
  2:{ split_and!; [split; [auto|done]|split; [done|]|intros []; auto].
      intros [(? & _)|(? & _)]; done. }
  case_bool_decide as Hempty.
  { split_and!; [split; [auto|done]|split; [done|]|intros []; auto].
    intros [(_ & ? & _)|(_ & ? & _)]; done. }
  destruct probe eqn:Hprobe; cbn [negb].
  2:{ split_and!; [split; [done|intros [|]; done]|split; [auto|done]|].
      intros _ []. auto. }
  destruct (existsb BinaryXml.is_invalid (BinaryXml.elements xml)) eqn:Hex.
  - split_and!; [split; [done|intros [|]; done]| |].
    + split; [|done]. intros _. right. split_and!; try done.
      apply Hinv. done.
    + intros _ []. right. split_and!; try done. apply Hinv. done.
  - split_and!; [split; [done|intros [|]; done]| |done].
    split; [done|].
    intros [(_ & _ & ?)|(_ & _ & _ & Hex')]; [done|].
    apply Hinv in Hex'. done.
Qed.

(** C2 (amended) -- what the traversal step leaves behind.  When the
    manifest is present, not empty and passes the existence probe,
    [makeDebuggable] ends in one of two ways that depend only on whether
    the element sequence holds an invalid element: with one it raises the
    malformed manifest exception, without one it returns nothing.  The
    visitor compares each start-tag and end-tag with the application tag
    but keeps no record of a match. *)
Theorem makeDebuggable_traversal_outcome getFiles getFileContents decode self :
  let path := Apk.apkPath_ self in
  let xml := decode (getFileContents path Apk.ANDROID_MANIFEST) in
  Apk.ANDROID_MANIFEST ∈ getFiles path →
  getFileContents path Apk.ANDROID_MANIFEST ≠ [] →
  BinaryXml.hasElement xml Apk.ANDROID_MANIFEST_TAG_APPLICATION = true →
  Apk.makeDebuggable getFiles getFileContents decode self
  = if existsb BinaryXml.is_invalid (BinaryXml.elements xml)
    then Throws (MalformedAndroidManifestException path)
    else Returns ().
Proof.
  intros path xml Hloc Hcontents Hprobe.
  unfold Apk.makeDebuggable, BinaryXml.traverseElements.
  rewrite bool_decide_eq_true_2 by done. cbn [negb].
  rewrite bool_decide_eq_false_2 by done.
  fold path. fold xml. rewrite Hprobe. cbn [negb].
  apply traverse_visitor.
Qed.

(** C9 -- [isDebuggable] is the constant false. *)
Theorem isDebuggable_false self : Apk.isDebuggable self = false.
Proof. reflexivity. Qed.

(** ** The statements at sample inputs *)

Import Samples.

(** Scenarios B to E of the design document. *)
Example scenario_missing_manifest :
  makeDebuggable "bare.apk"
  = Throws (MissingAndroidManifestException "bare.apk").
Proof. reflexivity. Qed.

Example scenario_empty_manifest :
  makeDebuggable "empty.apk"
  = Throws (MissingAndroidManifestException "empty.apk").
Proof. reflexivity. Qed.

Example scenario_no_application_tag :
  makeDebuggable "plain.apk"
  = Throws (MalformedAndroidManifestException "plain.apk").
Proof. reflexivity. Qed.

Example scenario_invalid_element :
  makeDebuggable "broken.apk"
  = Throws (MalformedAndroidManifestException "broken.apk").
Proof. reflexivity. Qed.

(** C2 as stated fails: a manifest whose application tag is opened and
    closed and one whose application tag is never closed both pass the
    probe and leave [makeDebuggable] with the same outcome, so nothing the
    operation ends with tells the two apart. *)
Lemma traversal_records_no_target_state :
  Apk.both_observed complete = true
  ∧ Apk.both_observed unclosed = false
  ∧ makeDebuggable "complete.apk" = Returns ()
  ∧ makeDebuggable "unclosed.apk" = Returns ()
  ∧ ¬ ∃ classify : outcome unit → Apk.target_state,
        ∀ apkPath es,
          Samples.decode (Samples.getFileContents apkPath Apk.ANDROID_MANIFEST)
          = {| BinaryXml.elements := es |} →
          BinaryXml.hasElement {| BinaryXml.elements := es |}
            Apk.ANDROID_MANIFEST_TAG_APPLICATION = true →
          classify (makeDebuggable apkPath)
          = if Apk.both_observed es
            then Apk.TARGET_FOUND else Apk.TARGET_MISSING.
Proof.
  split_and!; try reflexivity.
  intros [classify Hc].
  pose proof (Hc "complete.apk" complete eq_refl eq_refl) as H1.
  pose proof (Hc "unclosed.apk" unclosed eq_refl eq_refl) as H2.
  cbv in H1, H2. congruence.
Qed.

Lemma makeDebuggable_traversal_outcome_witness :
  makeDebuggable "broken.apk"
  = Throws (MalformedAndroidManifestException "broken.apk").
Proof.
  apply (makeDebuggable_traversal_outcome Samples.getFiles
           Samples.getFileContents Samples.decode
           {| Apk.apkPath_ := "broken.apk" |}).
  - apply (bool_decide_unpack _). vm_compute. exact I.
  - discriminate.
  - reflexivity.
Defined.

(** C3 as stated fails.  Added under a name the container already holds,
    the new bytes become a second member and the extraction by name lands
    on the first one.  Added under a name with an embedded NUL, or under
    one longer than the listing's name buffer, the member is not found
    under that name afterwards. *)
Lemma round_trip_fails_on_existing_name :
  let added :=
    ZipArchiver.add BUFSIZ archiver (Istream.of_bytes (text "bye")) "a.txt"
      stocked in
  let added_nul :=
    ZipArchiver.add BUFSIZ archiver (Istream.of_bytes (text "bye")) nul_name
      fresh in
  let added_long :=
    ZipArchiver.add BUFSIZ archiver (Istream.of_bytes (text "bye")) long_name
      fresh in
  ((∃ st', fst added = Returns st')
   ∧ fst (ZipArchiver.extractMemberBytes archiver "a.txt" (snd added))
     = Returns ("a.txt", text "hello")
   ∧ text "hello" ≠ text "bye")
  ∧ ((∃ st', fst added_nul = Returns st')
     ∧ fst (ZipArchiver.extractMemberBytes archiver nul_name (snd added_nul))
       = Throws ZipArchiver.not_in_archive_error)
  ∧ ((∃ st', fst added_long = Returns st')
     ∧ fst (ZipArchiver.extractMemberBytes archiver long_name
              (snd added_long))
       = Throws ZipArchiver.not_in_archive_error).
Proof.
  split_and!; try discriminate; try (vm_compute; reflexivity);
    vm_compute; eauto.
Qed.

Lemma add_then_extract_round_trip_witness :
  ∃ st' w1 w2,
    ZipArchiver.add BUFSIZ archiver (Istream.of_bytes (letters 2500)) "c.txt"
      stocked = (Returns st', w1)
    ∧ ZipArchiver.extractMemberBytes archiver "c.txt" w1
      = (Returns ("c.txt", letters 2500), w2).
Proof.
  apply (add_then_extract_round_trip BUFSIZ archiver
           (Istream.of_bytes (letters 2500)) "c.txt" [hello; readme] stocked).
  - unfold BUFSIZ. lia.
  - split; reflexivity.
  - vm_compute. reflexivity.
  - left. reflexivity.
  - split; reflexivity.
  - split; [reflexivity|]. cbn. lia.
  - apply (bool_decide_unpack _). vm_compute. exact I.
Defined.



Lemma extract_invalid_destination_witness :
  ZipArchiver.extract archiver "a.txt" "notes.txt" stocked
  = (Throws ZipArchiver.destination_error, stocked)
  ∧ ZipArchiver.extractAll archiver "notes.txt" stocked
    = (Throws ZipArchiver.destination_error, stocked).
Proof.
  apply (extract_invalid_destination archiver "a.txt" "notes.txt" stocked);
    reflexivity.
Defined.

(** C6 as stated fails: extracting the two members of a container walks
    its directory three times, not once. *)
Lemma extractAll_reads_listing_again :
  fst (ZipArchiver.extractAll archiver "out" stocked) = Returns ()
  ∧ listing_reads
      (trace (snd (ZipArchiver.extractAll archiver "out" stocked))) = 3%nat
  ∧ 3%nat ≠ 1%nat.
Proof. split_and!; [vm_compute; reflexivity..|lia]. Qed.

Lemma extractAll_listing_reads_witness :
  ∃ cs,
    trace (snd (ZipArchiver.extractAll archiver "out" stocked))
    = trace stocked ++ cs
    ∧ located_names cs = CString.c_str <$> (listed [hello; readme]).*1
    ∧ listing_reads cs = 3%nat.
Proof.
  apply (extractAll_listing_reads archiver "out" [hello; readme] stocked
           (snd (ZipArchiver.extractAll archiver "out" stocked))).
  - reflexivity.
  - vm_compute. reflexivity.
Defined.

(** C7 as stated fails, in two ways.  A name with an embedded NUL reaches
    the library cut at the NUL, so [contains] finds the member [a.txt]
    under a name the listing does not hold.  And a member whose name is
    longer than the listing's name buffer is found by [contains] under its
    full name while the listing holds a shorter one. *)
Lemma contains_disagrees_with_listing :
  (fst (ZipArchiver.contains archiver nul_name stocked) = Returns true
   ∧ fst (ZipArchiver.getAllEntriesInZipFile "app.apk" stocked)
     = Returns (listed [hello; readme])
   ∧ nul_name ∉ (listed [hello; readme]).*1)
  ∧ (fst (ZipArchiver.contains archiver long_name long_named) = Returns true
     ∧ fst (ZipArchiver.getAllEntriesInZipFile "app.apk" long_named)
       = Returns (listed [new_member long_name (text "x")])
     ∧ long_name ∉ (listed [new_member long_name (text "x")]).*1).
Proof.
  split; split_and!; try (vm_compute; reflexivity);
    apply (bool_decide_unpack _); vm_compute; exact I.
Qed.

Lemma contains_iff_listed_witness :
  ∃ b l,
    fst (ZipArchiver.contains archiver "b.txt" stocked) = Returns b
    ∧ fst (ZipArchiver.getAllEntriesInZipFile "app.apk" stocked) = Returns l
    ∧ (b = true ↔ "b.txt" ∈ l.*1).
Proof.
  apply (contains_iff_listed archiver "b.txt" stocked).
  - reflexivity.
  - intros es Hes. vm_compute in Hes. injection Hes as <-.
    repeat constructor; cbn; lia.
Defined.

(** C8 -- [add] returns normally without the whole stream written.  With
    the member write session refused it returns with no member added;
    with a source that fails after 1500 bytes, or with the second chunk
    refused, it returns with a member that holds the first 1024 bytes
    only. *)
Theorem add_returns_after_partial_write :
  let refused :=
    ZipArchiver.add BUFSIZ archiver (Istream.of_bytes (letters 2048)) "c.txt"
      refusing_session in
  let failing :=
    ZipArchiver.add BUFSIZ archiver (Istream.failing_after (letters 1500))
      "c.txt" fresh in
  let second :=
    ZipArchiver.add BUFSIZ archiver (Istream.of_bytes (letters 2048)) "c.txt"
      refusing_second_chunk in
  ((∃ st', fst refused = Returns st')
   ∧ fs (snd refused) !! "app.apk" = Some (ZipArchive []))
  ∧ ((∃ st', fst failing = Returns st')
     ∧ fs (snd failing) !! "app.apk"
       = Some (ZipArchive [new_member "c.txt" (letters 1024)]))
  ∧ ((∃ st', fst second = Returns st')
     ∧ fs (snd second) !! "app.apk"
       = Some (ZipArchive [new_member "c.txt" (letters 1024)])).
Proof.
  split_and!; try (vm_compute; reflexivity); vm_compute; eauto.
Qed.


(** * Further properties of the archiver *)

(** ** The copy loop in any environment *)

Lemma write_loop_invariant BUFSIZ fuel result st zf w st' zf' w' :
  ZipArchiver.write_loop BUFSIZ fuel result st zf w
  = (Returns (st', zf'), w') →
  Minizip.zf_path zf' = Minizip.zf_path zf
  ∧ Minizip.zf_entries zf' = Minizip.zf_entries zf
  ∧ fs w' = fs w
  ∧ ∃ cs d,
      trace w' = trace w ++ cs
      ∧ Forall (chunk_write_within BUFSIZ) cs
      ∧ d `prefix_of` Istream.pending st
      ∧ Minizip.zf_current zf' = session_grown (Minizip.zf_current zf) d.
Proof.
  revert result st zf w.
  induction fuel as [|fuel IH]; intros result st zf w; [done|].
  cbn [ZipArchiver.write_loop].
  destruct (Istream.read BUFSIZ st) as [readBuffer st1] eqn:Hread.
  assert (∀ zf0 w0,
            (Returns (st1, zf0), w0) = (Returns (st', zf'), w') →
            zf0 = zf → w0 = w →
            Minizip.zf_path zf' = Minizip.zf_path zf
            ∧ Minizip.zf_entries zf' = Minizip.zf_entries zf
            ∧ fs w' = fs w
            ∧ ∃ cs d,
                trace w' = trace w ++ cs
                ∧ Forall (chunk_write_within BUFSIZ) cs
                ∧ d `prefix_of` Istream.pending st
                ∧ Minizip.zf_current zf'
                  = session_grown (Minizip.zf_current zf) d) as Hstop.
  { intros zf0 w0 [= <- <- <-] -> ->. split_and!; try done.
    exists [], []. rewrite !app_nil_r. split_and!; try done.
    - apply prefix_nil.
    - unfold session_grown. destruct (Minizip.zf_current zf) as [[n x]|];
        [rewrite app_nil_r|]; done. }
  unfold bind, ret.
  destruct (_ && negb (Istream.good st1)).
  { cbn [Z.eqb Minizip.ZIP_ERRNO Minizip.ZIP_OK andb]. eauto. }
  destruct (bool_decide (0 < Istream.gcount st1)%nat) eqn:Hsome.
  2:{ rewrite andb_false_r. eauto. }
  apply bool_decide_eq_true in Hsome.
  unfold Istream.read in Hread.
  destruct (Istream.good st) eqn:Hgood; injection Hread as <- <-;
    cbn [Istream.gcount Istream.pending] in *; [|lia].
  rewrite length_take in Hsome.
  rewrite (take_ge (take _ _)) by (rewrite length_take; lia).
  unfold Minizip.zipWriteInFileInZip, bind, record, get_faults, put_faults,
    ret.
  destruct (_ =? Minizip.ZIP_OK) eqn:Hrc.
  2:{ rewrite Hrc. cbn [andb]. intros [= <- <- <-]. cbn [fs trace].
      split_and!; try done.
      exists [CallZipWriteInFileInZip
                (length (take BUFSIZ (Istream.pending st)))], [].
      split_and!; try done.
      - repeat constructor; rewrite length_take; lia.
      - apply prefix_nil.
      - unfold session_grown.
        destruct (Minizip.zf_current zf) as [[n x]|];
          [rewrite app_nil_r|]; done. }
  cbn [Z.eqb Minizip.ZIP_OK andb].
  intros Hloop. apply IH in Hloop
    as (Hpath & Hentries & Hfs & cs & d & Htr & Hcs & Hd & Hcur).
  cbn [Minizip.zf_path Minizip.zf_entries Minizip.zf_current fs trace
       Istream.pending] in *.
  split_and!; try done.
  exists (CallZipWriteInFileInZip (length (take BUFSIZ (Istream.pending st)))
          :: cs), (take BUFSIZ (Istream.pending st) ++ d).
  split_and!.
  - rewrite Htr, <- app_assoc. done.
  - constructor; [|done]. cbn. rewrite length_take. lia.
  - rewrite <- (take_drop BUFSIZ (Istream.pending st)) at 2.
    apply prefix_app. done.
  - rewrite Hcur. unfold session_grown.
    destruct (Minizip.zf_current zf) as [[n x]|]; [|done].
    rewrite app_assoc. done.
Qed.

(** ** [add] in any environment *)

Lemma add_opened BUFSIZ self st name es w :
  opens_with (fs w) (ZipArchiver.zipPath_ self) es →
  ∃ st' w' cs,
    ZipArchiver.add BUFSIZ self st name w = (Returns st', w')
    ∧ trace w'
      = trace w ++ [CallZipOpen (ZipArchiver.zipPath_ self);
                    CallZipOpenNewFileInZip (CString.c_str name)] ++ cs
    ∧ Forall (chunk_write_within BUFSIZ) cs
    ∧ if openNewFile_rc (faults w) =? Minizip.ZIP_OK
      then ∃ d, d `prefix_of` Istream.pending st
                ∧ fs w' = <[ZipArchiver.zipPath_ self :=
                              ZipArchive
                                (es ++ [new_member (CString.c_str name) d])]>
                            (fs w)
      else st' = st ∧ cs = []
           ∧ fs w' = <[ZipArchiver.zipPath_ self := ZipArchive es]> (fs w).
Proof.
  intros Hopen. unfold ZipArchiver.add.
  rewrite (bind_returns _ _ _ _ _ (openZipFile_opens _ es w Hopen)).
  unfold bind at 1.
  unfold Minizip.zipOpenNewFileInZip_64 at 1, bind at 1, record, bind at 1,
    get_faults, ret at 1 2.
  cbn [faults traced].
  destruct (openNewFile_rc (faults w) =? Minizip.ZIP_OK) eqn:Hrc.
  - cbn [Z.eqb Minizip.ZIP_OK].
    unfold ZipArchiver.writeStreamToOpenZipFile.
    edestruct (write_loop_total BUFSIZ (S (length (Istream.pending st))))
      as ([st' zf'] & w' & Hloop); [|].
    2:{ unfold bind at 1. unfold bind at 1. rewrite Hloop.
        apply write_loop_invariant in Hloop
          as (Hpath & Hentries & Hfs & cs & d & Htr & Hcs & Hd & Hcur).
        cbn [Minizip.zf_path Minizip.zf_entries Minizip.zf_current
             session_grown fs trace traced app] in *.
        unfold bind, Minizip.zipClose, Minizip.zipCloseFileInZip,
          get_fs, put_fs, ret.
        rewrite Hcur. cbn [Minizip.zf_current Minizip.zf_entries
                           Minizip.zf_path fs trace].
        rewrite Hpath, Hentries.
        eexists _, _, cs. split_and!; [reflexivity| |done|].
        - cbn [trace]. rewrite Htr, <- !app_assoc. done.
        - exists d. split; [done|]. cbn [fs]. rewrite Hfs. done. }
    lia.
  - rewrite Hrc.
    unfold bind, Minizip.zipClose, Minizip.zipCloseFileInZip, get_fs, put_fs,
      ret.
    cbn [Minizip.zf_current Minizip.zf_entries Minizip.zf_path fs trace].
    eexists _, _, []. split_and!; try done.
    cbn [trace traced]. rewrite <- app_assoc. done.
Qed.

Lemma opens_with_decided f zip :
  (∃ es, opens_with f zip es) ∨ (∀ es, ¬ opens_with f zip es).
Proof.
  unfold opens_with.
  destruct (f !! zip) as [[| |es]|] eqn:Hfs.
  1,2: right; intros es [?|(? & _)]; congruence.
  - left. exists es. left. done.
  - destruct (Filesystem.ofstream_opens f zip) eqn:Hopen.
    + left. exists []. right. done.
    + right. intros es [?|(_ & ? & _)]; congruence.
Qed.


Lemma add_unopenable BUFSIZ self st name w :
  (∀ es, ¬ opens_with (fs w) (ZipArchiver.zipPath_ self) es) →
  ZipArchiver.add BUFSIZ self st name w
  = (Throws (logic_error "unable to open zip file"),
     traced w [CallZipOpen (ZipArchiver.zipPath_ self)]).
Proof.
  intros Hno. unfold ZipArchiver.add, bind at 1.
  rewrite openZipFile_refused by done. done.
Qed.

(** X1 -- when [add] raises.  [add] raises exactly when the container
    handle cannot be opened: something other than a container is at the
    path, or nothing is there and no file can be created.  The error is
    then the one of [openZipFile] and the file system is left as it
    was. *)
Theorem add_raises_only_unopenable BUFSIZ self st name w :
  ((∃ e w', ZipArchiver.add BUFSIZ self st name w = (Throws e, w'))
   ↔ ∀ es, ¬ opens_with (fs w) (ZipArchiver.zipPath_ self) es)
  ∧ (∀ e w',
       ZipArchiver.add BUFSIZ self st name w = (Throws e, w') →
       e = logic_error "unable to open zip file" ∧ fs w' = fs w).
Proof.
  destruct (opens_with_decided (fs w) (ZipArchiver.zipPath_ self))
    as [[es Hopen]|Hno].
  - destruct (add_opened BUFSIZ self st name es w Hopen)
      as (st' & w1 & cs & Hadd & _).
    rewrite Hadd. split; [split|]; [intros (? & ? & ?); done| |done].
    intros Hno. destruct (Hno es Hopen).
  - rewrite add_unopenable by done.
    split; [split; eauto|]. intros e w' [= <- <-]. done.
Qed.

(** X2 -- what [add] writes.  Once the container handle and the member
    write session are open, [add] returns normally in every environment
    and for every stream; afterwards the container holds the members it
    held before, in their order, followed by one new member under the
    name as [c_str()] passes it, and the bytes of that member are a prefix
    of the bytes the stream had to deliver. *)
Theorem add_appends_prefix_of_stream BUFSIZ self st name es w :
  opens_with (fs w) (ZipArchiver.zipPath_ self) es →
  openNewFile_rc (faults w) = Minizip.ZIP_OK →
  ∃ st' w' d,
    ZipArchiver.add BUFSIZ self st name w = (Returns st', w')
    ∧ d `prefix_of` Istream.pending st
    ∧ fs w' !! ZipArchiver.zipPath_ self
      = Some (ZipArchive (es ++ [new_member (CString.c_str name) d])).
Proof.
  intros Hopen Hrc.
  destruct (add_opened BUFSIZ self st name es w Hopen)
    as (st' & w' & cs & Hadd & _ & _ & Hfs).
  rewrite Hrc in Hfs. cbn in Hfs. destruct Hfs as (d & Hd & Hfs).
  exists st', w', d. split_and!; [done..|].
  rewrite Hfs. apply lookup_insert_eq.
Qed.

(** X3 -- a refused member write session.  When the library refuses to
    start the member, [add] still returns normally: the stream has not
    been read and the container holds exactly the members it held
    before. *)
Theorem add_refused_session_is_silent BUFSIZ self st name es w :
  opens_with (fs w) (ZipArchiver.zipPath_ self) es →
  openNewFile_rc (faults w) ≠ Minizip.ZIP_OK →
  ∃ w',
    ZipArchiver.add BUFSIZ self st name w = (Returns st, w')
    ∧ fs w' !! ZipArchiver.zipPath_ self = Some (ZipArchive es).
Proof.
  intros Hopen Hrc.
  destruct (add_opened BUFSIZ self st name es w Hopen)
    as (st' & w' & cs & Hadd & _ & _ & Hfs).
  apply Z.eqb_neq in Hrc. rewrite Hrc in Hfs. destruct Hfs as (-> & _ & Hfs).
  exists w'. split; [done|]. rewrite Hfs. apply lookup_insert_eq.
Qed.

(** X5 -- chunk sizes.  Every chunk [add] hands to [zipWriteInFileInZip]
    holds at least one byte and at most [BUFSIZ] bytes, whatever the
    stream and the environment do. *)
Theorem add_writes_bounded_chunks BUFSIZ self st name w :
  ∃ cs,
    trace (snd (ZipArchiver.add BUFSIZ self st name w)) = trace w ++ cs
    ∧ ∀ len,
        CallZipWriteInFileInZip len ∈ cs → (0 < len ≤ BUFSIZ)%nat.
Proof.
  destruct (opens_with_decided (fs w) (ZipArchiver.zipPath_ self))
    as [[es Hopen]|Hno].
  - destruct (add_opened BUFSIZ self st name es w Hopen)
      as (st' & w' & cs & Hadd & Htr & Hcs & _).
    rewrite Hadd. cbn [snd]. eexists. split; [exact Htr|].
    intros len Hin. cbn [app] in Hin.
    apply elem_of_cons in Hin as [?|Hin]; [done|].
    apply elem_of_cons in Hin as [?|Hin]; [done|].
    rewrite Forall_forall in Hcs. apply (Hcs _ Hin).
  - rewrite add_unopenable by done. cbn [snd traced trace].
    eexists. split; [done|].
    intros len Hin. apply list_elem_of_singleton in Hin. done.
Qed.


(** ** [getAllEntriesInZipFile] and [contains] *)

Lemma contains_of_container self name es w :
  fs w !! ZipArchiver.zipPath_ self = Some (ZipArchive es) →
  ZipArchiver.contains self name w
  = (Returns (bool_decide (CString.c_str name ∈ e_name <$> es)),
     traced w [CallUnzOpen (ZipArchiver.zipPath_ self);
               CallUnzLocateFile (CString.c_str name)]).
Proof.
  intros Hfs.
  unfold ZipArchiver.contains, Minizip.unzOpen, Minizip.unzLocateFile,
    bind, record, get_fs, ret, traced.
  cbn [fs faults trace]. rewrite Hfs. cbn [Minizip.uz_entries].
  pose proof (locate_is_Some (CString.c_str name) es) as Hloc.
  destruct (Minizip.locate (CString.c_str name) es) as [i|];
    cbn [fst Z.eqb Minizip.UNZ_OK Minizip.UNZ_END_OF_LIST_OF_FILE trace fs
         faults];
    rewrite <- app_assoc.
  - rewrite bool_decide_eq_true_2 by (apply Hloc; eauto). done.
  - rewrite bool_decide_eq_false_2; [done|].
    intros [? ?]%Hloc. done.
Qed.

Lemma contains_of_other self name w :
  (∀ es, fs w !! ZipArchiver.zipPath_ self ≠ Some (ZipArchive es)) →
  ZipArchiver.contains self name w
  = (Returns false, traced w [CallUnzOpen (ZipArchiver.zipPath_ self)]).
Proof.
  intros Hfs.
  unfold ZipArchiver.contains, Minizip.unzOpen, bind, record, get_fs, ret.
  cbn [fs]. destruct (fs w !! _) as [[| |es]|] eqn:E; try done.
  destruct (Hfs es). done.
Qed.

Lemma listing_total path w :
  ∃ l w', ZipArchiver.getAllEntriesInZipFile path w = (Returns l, w').
Proof.
  destruct (fs w !! path) as [[| |es]|] eqn:Hfs.
  1,2,4: rewrite getAllEntries_of_other by (intros es; congruence); eauto.
  rewrite (getAllEntries_of_container _ es) by done. eauto.
Qed.

(** X7 -- the listing never raises.  [getAllEntriesInZipFile] returns
    normally on every path and leaves the file system as it was.  On a
    container it returns one entry per member, in the order of the
    archive, each with the member's sizes and its name as it arrives
    through the 256-byte buffer; on anything else (no file, a directory, a
    file that is no container) it returns the empty listing. *)
Theorem listing_never_raises path w :
  ∃ l w',
    ZipArchiver.getAllEntriesInZipFile path w = (Returns l, w')
    ∧ fs w' = fs w
    ∧ l = match fs w !! path with
          | Some (ZipArchive es) => listed es
          | _ => []
          end
    ∧ ∀ es, fs w !! path = Some (ZipArchive es) →
        length l = length es
        ∧ ∀ i e, es !! i = Some e →
            l !! i = Some (CString.from_buffer 256 (e_name e), e_info e).
Proof.
  destruct (fs w !! path) as [[| |es]|] eqn:Hfs.
  1,2,4: rewrite getAllEntries_of_other by (intros es; congruence);
         eexists _, _; split_and!; done.
  rewrite (getAllEntries_of_container _ es) by done.
  eexists _, _. split_and!; try done.
  intros ? [= <-]. unfold listed. split; [apply length_fmap|].
  intros i e He. rewrite list_lookup_fmap, He. done.
Qed.

(** X8 -- what [contains] answers.  [contains] never raises and leaves the
    file system as it was; it answers true exactly when the path holds a
    container with a member whose name is the asked name as [c_str()]
    passes it, and false in particular whenever the container cannot be
    opened. *)
Theorem contains_answers_first_match self name w :
  ∃ b w',
    ZipArchiver.contains self name w = (Returns b, w')
    ∧ fs w' = fs w
    ∧ (b = true
       ↔ ∃ es, fs w !! ZipArchiver.zipPath_ self = Some (ZipArchive es)
               ∧ CString.c_str name ∈ e_name <$> es).
Proof.
  destruct (fs w !! ZipArchiver.zipPath_ self) as [[| |es]|] eqn:Hfs.
  1,2,4: rewrite contains_of_other by (intros es; congruence);
         eexists _, _; (split_and!; [done..|]);
         split; [done|intros (es & ? & _); done].
  rewrite (contains_of_container _ _ es) by done.
  eexists _, _. split_and!; [done..|].
  rewrite bool_decide_eq_true. split; [eauto|].
  intros (es' & [= <-] & Hin). done.
Qed.

(** X9 -- [add] then [contains].  Once the container handle and the member
    write session are open, the name [add] was given is contained
    afterwards, whatever happened to the stream and to the chunk writes. *)
Theorem add_then_contains BUFSIZ self st name es w :
  opens_with (fs w) (ZipArchiver.zipPath_ self) es →
  openNewFile_rc (faults w) = Minizip.ZIP_OK →
  fst (ZipArchiver.contains self name
         (snd (ZipArchiver.add BUFSIZ self st name w)))
  = Returns true.
Proof.
  intros Hopen Hrc.
  destruct (add_opened BUFSIZ self st name es w Hopen)
    as (st' & w' & cs & Hadd & _ & _ & Hfs).
  rewrite Hrc in Hfs. cbn in Hfs. destruct Hfs as (d & _ & Hfs).
  rewrite Hadd. cbn [snd].
  erewrite contains_of_container
    by (rewrite Hfs; apply lookup_insert_eq).
  cbn [fst]. rewrite bool_decide_eq_true_2; [done|].
  rewrite fmap_app. apply elem_of_app. right. cbn. left.
Qed.

(** X10 -- [add] then the listing.  After an [add] on a cooperative
    environment from a stream that reads to its end, the listing is the
    one before followed by one entry for the new member, whose
    uncompressed size is the number of bytes of the stream.  A name the
    container already holds is listed once more: nothing is replaced. *)
Theorem add_then_listing BUFSIZ self st name es w :
  (0 < BUFSIZ)%nat →
  healthy st →
  opens_with (fs w) (ZipArchiver.zipPath_ self) es →
  cooperative (faults w) →
  fst (ZipArchiver.getAllEntriesInZipFile (ZipArchiver.zipPath_ self)
         (snd (ZipArchiver.add BUFSIZ self st name w)))
  = Returns
      (listed es ++
       [(CString.from_buffer 256 (CString.c_str name),
         {| uncompressed_size := N.of_nat (length (Istream.pending st));
            compressed_size := N.of_nat (length (Istream.pending st)) |})]).
Proof.
  intros HB Hst Hopen Hcoop.
  destruct (add_cooperative BUFSIZ self st name es w)
    as (st' & w1 & Hadd & Hfs); try done.
  rewrite Hadd. cbn [snd].
  erewrite getAllEntries_of_container
    by (rewrite Hfs; apply lookup_insert_eq).
  cbn [fst]. unfold listed. rewrite fmap_app. done.
Qed.

(** ** [extract] and [extractAll] *)


Lemma extract_of_failed_read self name path w e w1 :
  Filesystem.is_directory (fs w) path
    || negb (Filesystem.exists_ (fs w) path) = true →
  ZipArchiver.extractMemberBytes self name w = (Throws e, w1) →
  ZipArchiver.extract self name path w = (Throws e, w1).
Proof.
  intros Hvalid Hread.
  unfold ZipArchiver.extract, bind at 1, get_fs at 1.
  rewrite Hvalid. cbn [negb]. unfold bind at 1. rewrite Hread. done.
Qed.



(** X11 -- a member that is not listed.  With a valid destination, asking
    [extract] for a name the listing does not hold (in particular any name
    at all when the container cannot be opened) raises the error
    [path does not exist in archive] and writes nothing. *)
Theorem extract_of_unlisted_name self name path w :
  Filesystem.is_directory (fs w) path
    || negb (Filesystem.exists_ (fs w) path) = true →
  (∀ es, fs w !! ZipArchiver.zipPath_ self = Some (ZipArchive es) →
         name ∉ (listed es).*1) →
  ∃ w',
    ZipArchiver.extract self name path w
    = (Throws ZipArchiver.not_in_archive_error, w')
    ∧ fs w' = fs w.
Proof.
  intros Hvalid Hout.
  destruct (fs w !! ZipArchiver.zipPath_ self) as [[| |es]|] eqn:Hfs.
  1,2,4: erewrite extract_of_failed_read;
         [|done|apply extractMemberBytes_of_other; intros es; congruence];
         eauto.
  erewrite extract_of_failed_read; [|done|].
  2:{ rewrite (extractMemberBytes_of_container _ es) by done.
      unfold member_bytes_of.
      rewrite bool_decide_eq_false_2 by auto. reflexivity. }
  eauto.
Qed.


(** X13 -- nothing to extract.  With a valid destination, [extractAll] on
    a path that holds no container, or a container without members,
    returns normally and writes nothing: a missing archive is not an
    error. *)
Theorem extractAll_of_nothing self path w :
  Filesystem.is_directory (fs w) path
    || negb (Filesystem.exists_ (fs w) path) = true →
  (∀ es, fs w !! ZipArchiver.zipPath_ self = Some (ZipArchive es) →
         es = []) →
  ∃ w', ZipArchiver.extractAll self path w = (Returns (), w')
        ∧ fs w' = fs w.
Proof.
  intros Hvalid Hnone.
  unfold ZipArchiver.extractAll, bind at 1, get_fs at 1.
  rewrite Hvalid. cbn [negb].
  destruct (fs w !! ZipArchiver.zipPath_ self) as [[| |es]|] eqn:Hfs.
  1,2,4: erewrite bind_returns
           by (apply getAllEntries_of_other; intros es; congruence);
         cbn; eauto.
  rewrite (Hnone es eq_refl) in Hfs.
  erewrite bind_returns by (apply getAllEntries_of_container; done).
  cbn. eauto.
Qed.

(** X14 -- extracted, hence contained.  Whenever [extract] returns
    normally for a name, [contains] answers true for that name on the
    same world. *)
Theorem extract_returns_only_contained self name path w w' :
  ZipArchiver.extract self name path w = (Returns (), w') →
  fst (ZipArchiver.contains self name w) = Returns true.
Proof.
  unfold ZipArchiver.extract, bind at 1, get_fs at 1.
  destruct (negb _); [done|].
  unfold bind at 1.
  destruct (ZipArchiver.extractMemberBytes self name w)
    as [[[member buf]| |] w1] eqn:Hread; [|done..].
  intros _.
  apply extractMemberBytes_returns in Hread
    as (es & e & Hfs & _ & He & _).
  rewrite (contains_of_container _ _ es) by done. cbn [fst].
  rewrite bool_decide_eq_true_2; [done|].
  apply locate_is_Some. unfold member_of in He.
  destruct (Minizip.locate (CString.c_str name) es); [eauto|done].
Qed.

Lemma member_bytes_of_outcomes zip es name w :
  (∃ r, fst (member_bytes_of zip es name w) = Returns r)
  ∨ fst (member_bytes_of zip es name w)
    = Throws ZipArchiver.not_in_archive_error
  ∨ fst (member_bytes_of zip es name w)
    = Throws (logic_error "unable to open zip entry in archive")
  ∨ fst (member_bytes_of zip es name w) = Throws ZipArchiver.short_read_error.
Proof.
  unfold member_bytes_of.
  destruct (bool_decide _); [|auto].
  destruct (member_of es (CString.c_str name)) as [e|]; [|auto].
  destruct (e_open_rc e =? Minizip.MZ_OK); [|auto].
  destruct (_ =? _); cbn [fst]; eauto 6.
Qed.

Lemma ofstream_write_close_returns target buf w :
  ∃ w', Filesystem.ofstream_write_close target buf w = (Returns (), w').
Proof.
  unfold Filesystem.ofstream_write_close, bind, record, get_fs, get_faults,
    put_fs, ret.
  cbn [fs]. destruct (Filesystem.ofstream_opens _ _); eauto.
Qed.

Lemma extract_outcome_cases self name path w :
  fst (ZipArchiver.extract self name path w) = Returns ()
  ∨ ∃ e, fst (ZipArchiver.extract self name path w) = Throws e
         ∧ (e = ZipArchiver.destination_error
            ∨ e = ZipArchiver.not_in_archive_error
            ∨ e = logic_error "unable to open zip entry in archive"
            ∨ e = ZipArchiver.short_read_error).
Proof.
  destruct (ZipArchiver.extract self name path w) as [o w'] eqn:Hrun.
  cbn [fst].
  unfold ZipArchiver.extract, bind at 1, get_fs at 1 in Hrun.
  destruct (negb _); [injection Hrun as <- _; eauto 8|].
  unfold bind at 1 in Hrun.
  destruct (fs w !! ZipArchiver.zipPath_ self) as [[| |es]|] eqn:Hfs.
  1,2,4: rewrite extractMemberBytes_of_other in Hrun
           by (intros es; congruence);
         injection Hrun as <- _; eauto 8.
  rewrite (extractMemberBytes_of_container _ es) in Hrun by done.
  destruct (member_bytes_of_outcomes (ZipArchiver.zipPath_ self) es name w)
    as [[[member buf] Hm]|[Hm|[Hm|Hm]]];
    destruct (member_bytes_of _ es name w) as [o1 w1];
    cbn [fst] in Hm; subst o1; try (injection Hrun as <- _; eauto 8).
  destruct (ofstream_write_close_returns
              (Filesystem.path_append path (CString.c_str member)) buf w1)
    as [w2 Hw].
  rewrite Hw in Hrun. injection Hrun as <- _. auto.
Qed.

(** X15 -- the errors of [extract].  In a run where nothing else changes
    the container between its calls, [extract] ends in one of five ways:
    it returns, or it raises the destination error, the error [path does
    not exist in archive], the error [unable to open zip entry in archive]
    or the short-read error.  Its two remaining [throw] statements
    ([archive does not exist], [unable to get file info in archive]) are
    never reached: the listing has already opened the container and the
    lookup has positioned the cursor. *)
Theorem extract_outcomes self name path w :
  let outcome := fst (ZipArchiver.extract self name path w) in
  outcome = Returns ()
  ∨ outcome = Throws ZipArchiver.destination_error
  ∨ outcome = Throws ZipArchiver.not_in_archive_error
  ∨ outcome = Throws (logic_error "unable to open zip entry in archive")
  ∨ outcome = Throws ZipArchiver.short_read_error.
Proof.
  intros outcome. subst outcome.
  destruct (extract_outcome_cases self name path w)
    as [-> | (e & -> & [-> | [-> | [-> | ->]]])]; auto 6.
Qed.

(** X16 -- the errors of [extractAll].  [extractAll] returns, or raises
    one of the four errors [extract] can raise: the destination error, the
    error [path does not exist in archive], the error [unable to open zip
    entry in archive] or the short-read error.  It never runs out of
    steps. *)
Theorem extractAll_outcomes self path w :
  fst (ZipArchiver.extractAll self path w) = Returns ()
  ∨ ∃ e, fst (ZipArchiver.extractAll self path w) = Throws e
         ∧ (e = ZipArchiver.destination_error
            ∨ e = ZipArchiver.not_in_archive_error
            ∨ e = logic_error "unable to open zip entry in archive"
            ∨ e = ZipArchiver.short_read_error).
Proof.
  assert (∀ l w0 o w',
            ZipArchiver.for_each
              (λ entry : ZipArchiver.PathAndFileInfo,
                 ZipArchiver.extract self (fst entry) path) l w0 = (o, w') →
            o = Returns ()
            ∨ ∃ e, o = Throws e
                   ∧ (e = ZipArchiver.destination_error
                      ∨ e = ZipArchiver.not_in_archive_error
                      ∨ e = logic_error "unable to open zip entry in archive"
                      ∨ e = ZipArchiver.short_read_error)) as Hloop.
  { induction l as [|[n i] l IH]; intros w0 o w';
      cbn [ZipArchiver.for_each]; [intros [= <- _]; auto|].
    unfold bind at 1. cbn [fst].
    destruct (extract_outcome_cases self n path w0) as [Hone|(e & Hone & He)];
      destruct (ZipArchiver.extract self n path w0) as [o1 w1];
      cbn [fst] in Hone; subst o1; [apply IH|intros [= <- _]; eauto]. }
  destruct (ZipArchiver.extractAll self path w) as [o w'] eqn:Hrun.
  cbn [fst].
  unfold ZipArchiver.extractAll, bind at 1, get_fs at 1 in Hrun.
  destruct (negb _); [injection Hrun as <- _; eauto 8|].
  destruct (listing_total (ZipArchiver.zipPath_ self) w) as (l & w1 & Hl).
  unfold bind at 1 in Hrun. rewrite Hl in Hrun. eapply Hloop, Hrun.
Qed.

(** ** Onto the disk *)






(** ** The further properties at sample inputs *)

Lemma add_appends_prefix_of_stream_witness :
  ∃ st' w' d,
    ZipArchiver.add BUFSIZ archiver (Istream.failing_after (letters 1500))
      "c.txt" stocked = (Returns st', w')
    ∧ d `prefix_of` letters 1500
    ∧ fs w' !! "app.apk"
      = Some (ZipArchive ([hello; readme] ++ [new_member "c.txt" d])).
Proof.
  apply (add_appends_prefix_of_stream BUFSIZ archiver
           (Istream.failing_after (letters 1500)) "c.txt" [hello; readme]
           stocked).
  - left. reflexivity.
  - reflexivity.
Defined.

Lemma add_refused_session_is_silent_witness :
  ∃ w',
    ZipArchiver.add BUFSIZ archiver (Istream.of_bytes (letters 2048)) "c.txt"
      refusing_session
    = (Returns (Istream.of_bytes (letters 2048)), w')
    ∧ fs w' !! "app.apk" = Some (ZipArchive []).
Proof.
  apply (add_refused_session_is_silent BUFSIZ archiver
           (Istream.of_bytes (letters 2048)) "c.txt" [] refusing_session).
  - right. split_and!; reflexivity.
  - discriminate.
Defined.


Lemma add_then_contains_witness :
  fst (ZipArchiver.contains archiver "c.txt"
         (snd (ZipArchiver.add BUFSIZ archiver
                 (Istream.failing_after (letters 1500)) "c.txt" stocked)))
  = Returns true.
Proof.
  apply (add_then_contains BUFSIZ archiver
           (Istream.failing_after (letters 1500)) "c.txt" [hello; readme]
           stocked).
  - left. reflexivity.
  - reflexivity.
Defined.

Lemma add_then_listing_witness :
  fst (ZipArchiver.getAllEntriesInZipFile "app.apk"
         (snd (ZipArchiver.add BUFSIZ archiver
                 (Istream.of_bytes (letters 2500)) "a.txt" stocked)))
  = Returns
      (listed [hello; readme] ++
       [(CString.from_buffer 256 (CString.c_str "a.txt"),
         {| uncompressed_size := N.of_nat (length (letters 2500));
            compressed_size := N.of_nat (length (letters 2500)) |})]).
Proof.
  apply (add_then_listing BUFSIZ archiver (Istream.of_bytes (letters 2500))
           "a.txt" [hello; readme] stocked).
  - unfold BUFSIZ. lia.
  - split; reflexivity.
  - left. reflexivity.
  - split; reflexivity.
Defined.

Lemma extract_of_unlisted_name_witness :
  ∃ w',
    ZipArchiver.extract archiver "zzz.txt" "out" stocked
    = (Throws ZipArchiver.not_in_archive_error, w')
    ∧ fs w' = fs stocked.
Proof.
  apply (extract_of_unlisted_name archiver "zzz.txt" "out" stocked).
  - reflexivity.
  - intros es Hes. vm_compute in Hes. injection Hes as <-.
    apply (bool_decide_unpack _). vm_compute. exact I.
Defined.


Lemma extractAll_of_nothing_witness :
  ∃ w', ZipArchiver.extractAll archiver "out" fresh = (Returns (), w')
        ∧ fs w' = fs fresh.
Proof.
  apply (extractAll_of_nothing archiver "out" fresh).
  - reflexivity.
  - intros es Hes. vm_compute in Hes. discriminate Hes.
Defined.

Lemma extract_returns_only_contained_witness :
  fst (ZipArchiver.contains archiver "b.txt" stocked) = Returns true.
Proof.
  apply (extract_returns_only_contained archiver "b.txt" "out" stocked
           (snd (ZipArchiver.extract archiver "b.txt" "out" stocked))).
  vm_compute. reflexivity.
Defined.


